(** * Batched matrix kernels of [src/lang/matmul.cpp]

    A shallow embedding of the benchmark and test driver of the Tlang
    prototype: the [Matrix] grid of IR expressions with its overloaded
    [*] and [+], the hand-written AOSOA and SOA AVX kernels, the index
    arithmetic and the comparisons of the validation loops, the scalar
    [test_vec_add] example and the [measure_cpe] timing harness.

    Conventions.
    - C++ [int] and [int64] values are integers of [Z].  Signed overflow
      is undefined behaviour in the source and does not happen at the
      sizes the program uses (see [offsets_fit_int]), so no wrap-around
      is written out.
    - A [float32*] buffer is a [list] of its elements, read with stdpp's
      lookup [!!]; an access outside the buffer is a failure, not a
      default value.
    - [float32] and [float64] values are [spec_float] with the binary32
      and binary64 parameters of the standard library's IEEE 754
      specification.  The kernels are stated over any lane type with any
      [*] and [+], so that nothing about rounding is assumed there. *)

From Stdlib Require Import ZArith Lia.
From Stdlib Require Import Floats.SpecFloat.
From stdpp Require Import base tactics option list.

(** * Outcomes of fallible code *)

(** How a call ends: normally, or by a fatal [TC_ASSERT] / [TC_ERROR], by
    the exception of [std::vector::resize] on a negative size, or in an
    unchecked access outside an array ([Undefined]). *)
Inductive outcome (A : Type) : Type :=
| Ok (a : A)
| AssertionFailed
| LengthError
| Undefined.
Arguments Ok {A} a.
Arguments AssertionFailed {A}.
Arguments LengthError {A}.
Arguments Undefined {A}.

#[global] Instance outcome_bind : MBind outcome := λ A B f x,
  match x with
  | Ok a => f a
  | AssertionFailed => AssertionFailed
  | LengthError => LengthError
  | Undefined => Undefined
  end.
#[global] Instance outcome_ret : MRet outcome := λ A a, Ok a.

(** Modelled from the spec: the macro [TC_ASSERT] of
    [taichi/common/util.h] ("all detected invariant violations abort the
    current run rather than attempting recovery"). *)
Definition TC_ASSERT (b : bool) : outcome unit :=
  if b then Ok tt else AssertionFailed.

(** [for (int i = lo; i < hi; i++) body], threading a state through a
    fallible body. *)
Fixpoint for_range {St : Type} (lo : Z) (cnt : nat)
    (body : Z → St → outcome St) (s : St) : outcome St :=
  match cnt with
  | O => Ok s
  | S c => s' ← body lo s; for_range (lo + 1) c body s'
  end.

Definition for_loop {St : Type} (lo hi : Z)
    (body : Z → St → outcome St) (s : St) : outcome St :=
  for_range lo (Z.to_nat (hi - lo)) body s.

(** * [Tlang::Matrix] and its algebra *)

Module Tlang.
Section Matrix.
(** [Expr] and its overloaded [*] and [+] are declared in [tlang.h];
    the matrix code only copies handles and calls the two operators, so
    they are parameters here. *)
Context {Expr : Type}.
Variable Expr_new : Expr.
Variable Expr_mul Expr_add : Expr → Expr → Expr.

Local Open Scope Z_scope.

Record Matrix : Type := mkMatrix {
  n : Z;
  m : Z;
  entries : list Expr;
}.

(** [Matrix(int n, int m = 1)]: [entries.resize(n * m, Expr())]. *)
Definition Matrix_new (n0 m0 : Z) : outcome Matrix :=
  if n0 * m0 <? 0 then LengthError
  else Ok (mkMatrix n0 m0 (replicate (Z.to_nat (n0 * m0)) Expr_new)).

(** [entries[z]], unchecked in the source. *)
Definition entries_at (l : list Expr) (z : Z) : outcome Expr :=
  if z <? 0 then Undefined
  else match l !! Z.to_nat z with
       | Some e => Ok e
       | None => Undefined
       end.

Definition entries_set (l : list Expr) (z : Z) (e : Expr)
    : outcome (list Expr) :=
  if (0 <=? z) && (z <? Z.of_nat (length l))
  then Ok (<[Z.to_nat z := e]> l)
  else Undefined.

(** [operator()(int i, int j)], read through the const overload: both
    indices are compared with [n]. *)
Definition get2 (M : Matrix) (i j : Z) : outcome Expr :=
  _ ← TC_ASSERT ((0 <=? i) && (i <? n M));
  _ ← TC_ASSERT ((0 <=? j) && (j <? n M));
  entries_at (entries M) (i * m M + j).

(** [M(i, j) = e] through the reference-returning overload. *)
Definition set2 (M : Matrix) (i j : Z) (e : Expr) : outcome Matrix :=
  _ ← TC_ASSERT ((0 <=? i) && (i <? n M));
  _ ← TC_ASSERT ((0 <=? j) && (j <? n M));
  l ← entries_set (entries M) (i * m M + j) e;
  Ok (mkMatrix (n M) (m M) l).

(** [operator()(int i)]. *)
Definition get1 (M : Matrix) (i : Z) : outcome Expr :=
  _ ← TC_ASSERT ((0 <=? i) && (i <? n M * m M));
  _ ← TC_ASSERT ((n M =? 1) || (m M =? 1));
  entries_at (entries M) i.

Definition set1 (M : Matrix) (i : Z) (e : Expr) : outcome Matrix :=
  _ ← TC_ASSERT ((0 <=? i) && (i <? n M * m M));
  _ ← TC_ASSERT ((n M =? 1) || (m M =? 1));
  l ← entries_set (entries M) i e;
  Ok (mkMatrix (n M) (m M) l).

(** [Matrix operator*(const Matrix &A, const Matrix &B)].  In each
    assignment the right-hand side is evaluated first, left operand
    before right operand, then the assigned reference. *)
Definition operator_mul (A B : Matrix) : outcome Matrix :=
  _ ← TC_ASSERT (m A =? n B);
  C ← Matrix_new (n A) (m B);
  for_loop 0 (n A) (λ i C,
    for_loop 0 (m B) (λ j C,
      a ← get2 A i 0;
      b ← get2 B 0 j;
      C ← set2 C i j (Expr_mul a b);
      for_loop 1 (m A) (λ k C,
        c ← get2 C i j;
        a ← get2 A i k;
        b ← get2 B k j;
        set2 C i j (Expr_add c (Expr_mul a b))) C) C) C.

(** [Matrix operator+(const Matrix &A, const Matrix &B)]. *)
Definition operator_add (A B : Matrix) : outcome Matrix :=
  _ ← TC_ASSERT (n A =? n B);
  _ ← TC_ASSERT (m A =? m B);
  C ← Matrix_new (n A) (m A);
  for_loop 0 (n A) (λ i C,
    for_loop 0 (m A) (λ j C,
      a ← get2 A i j;
      b ← get2 B i j;
      set2 C i j (Expr_add a b)) C) C.

(** A matrix as the constructor leaves it: [n * m] entries. *)
Definition wf (M : Matrix) : Prop :=
  0 <= n M * m M ∧ Z.of_nat (length (entries M)) = n M * m M.

(** [M] is a [rows x cols] matrix whose entries marked [done] are given,
    row-major, by [f]. *)
Definition filled (done : Z → Z → Prop) (M : Matrix) (rows cols : Z)
    (f : Z → Z → Expr) : Prop :=
  n M = rows ∧ m M = cols
  ∧ Z.of_nat (length (entries M)) = rows * cols
  ∧ ∀ i j, 0 <= i < rows → 0 <= j < cols → done i j →
      entries M !! Z.to_nat (i * cols + j) = Some (f i j).

Definition grid (M : Matrix) (rows cols : Z) (f : Z → Z → Expr) : Prop :=
  filled (λ _ _, True) M rows cols f.

(** The inner product of row [i] and column [j], nested from the left:
    the terms [k = 1 .. upto - 1] added in turn to the [k = 0] product. *)
Definition dot_upto (fa fb : Z → Z → Expr) (i j upto : Z) : Expr :=
  fold_left (λ c k, Expr_add c (Expr_mul (fa i k) (fb k j)))
            (seqZ 1 (upto - 1)) (Expr_mul (fa i 0) (fb 0 j)).

End Matrix.
Arguments Matrix Expr : clear implicits.
End Tlang.


(** Modelled from the spec: the IR node variant of the data model ("Leaf
    (identity, no operands) or Operator with kind Add, Multiply or Store
    and operand references"), which [tlang.h] declares.  It instantiates
    the [Expr] parameter of [Tlang.Matrix] in concrete runs. *)
Inductive IR : Type :=
| Leaf (id : nat)
| Multiply (a b : IR)
| Add (a b : IR)
| Store (a : IR).

(** * The hand-written AVX kernels *)

(** [constexpr int N = 256]. *)
Definition N : Z := 256.

Module Kernels.
Section Kernels.
(** One [float32] lane with its [*] and [+]: the kernels never look
    inside a value, so the lane type and its two operations are
    parameters (instantiated with binary32 in [Float32] below). *)
Context {T : Type}.
Variable fmul fadd : T → T → T.
(** [template <int dim>]. *)
Variable dim : Z.

Local Open Scope Z_scope.

Definition simd_width : Z := 8.

(** [__m256]: eight lanes, kept as a list. *)
Local Abbreviation m256 := (list T).

(** The buffers come from [AlignedAllocator], so an offset is 32-byte
    aligned exactly when it is a multiple of eight elements. *)
Definition m256_access_ok (buf : list T) (off : Z) : bool :=
  (0 <=? off) && (off mod 8 =? 0) && (off + 8 <=? Z.of_nat (length buf)).

(** [_mm256_load_ps(&buf[off])]. *)
Definition _mm256_load_ps (buf : list T) (off : Z) : outcome m256 :=
  if m256_access_ok buf off
  then Ok (take 8 (drop (Z.to_nat off) buf))
  else Undefined.

(** [_mm256_store_ps(&buf[off], v)]. *)
Definition _mm256_store_ps (buf : list T) (off : Z) (v : m256)
    : outcome (list T) :=
  if m256_access_ok buf off
  then Ok (list_inserts (Z.to_nat off) v buf)
  else Undefined.

(** Lane-wise [*] and [+] on [__m256]. *)
Definition m256_mul (x y : m256) : m256 := zip_with fmul x y.
Definition m256_add (x y : m256) : m256 := zip_with fadd x y.

(** [__m256 a[dim * dim]]: a local array whose slots hold no lanes until
    they are assigned. *)
Definition regs_new : list m256 := replicate (Z.to_nat (dim * dim)) [].

Definition regs_at (r : list m256) (i : Z) : outcome m256 :=
  if i <? 0 then Undefined
  else match r !! Z.to_nat i with
       | Some v => Ok v
       | None => Undefined
       end.

Definition regs_set (r : list m256) (i : Z) (v : m256)
    : outcome (list m256) :=
  if (0 <=? i) && (i <? Z.of_nat (length r))
  then Ok (<[Z.to_nat i := v]> r)
  else Undefined.

(** The closure [task] of [AOSOA_matmul<dim>(A, B, C)]; it reads [A] and
    [B] and updates [C]. *)
Definition AOSOA_task (A B C : list T) : outcome (list T) :=
  for_loop 0 (N / simd_width) (λ t C,
    let p := dim * dim * simd_width * t in
    ab ← for_loop 0 (dim * dim) (λ i ab,
      va ← _mm256_load_ps A (p + simd_width * i);
      a ← regs_set (fst ab) i va;
      vb ← _mm256_load_ps B (p + simd_width * i);
      b ← regs_set (snd ab) i vb;
      Ok (a, b)) (regs_new, regs_new);
    for_loop 0 dim (λ i C,
      for_loop 0 dim (λ j C,
        x ← regs_at (fst ab) (i * dim);
        y ← regs_at (snd ab) j;
        c ← for_loop 1 dim (λ k c,
          x ← regs_at (fst ab) (i * dim + k);
          y ← regs_at (snd ab) (k * dim + j);
          Ok (m256_add c (m256_mul x y))) (m256_mul x y);
        _mm256_store_ps C (p + simd_width * (i * dim + j)) c) C) C) C.

(** The closure [task] of [SOA_matmul<dim>(A, B, C)]. *)
Definition SOA_task (A B C : list T) : outcome (list T) :=
  for_loop 0 (N / simd_width) (λ t C,
    ab ← for_loop 0 (dim * dim) (λ i ab,
      va ← _mm256_load_ps A (i * N + t * simd_width);
      a ← regs_set (fst ab) i va;
      vb ← _mm256_load_ps B (i * N + t * simd_width);
      b ← regs_set (snd ab) i vb;
      Ok (a, b)) (regs_new, regs_new);
    for_loop 0 dim (λ i C,
      for_loop 0 dim (λ j C,
        x ← regs_at (fst ab) (i * dim);
        y ← regs_at (snd ab) j;
        c ← for_loop 1 dim (λ k c,
          x ← regs_at (fst ab) (i * dim + k);
          y ← regs_at (snd ab) (k * dim + j);
          Ok (m256_add c (m256_mul x y))) (m256_mul x y);
        _mm256_store_ps C ((i * dim + j) * N + t * simd_width) c) C) C) C.

(** [measure_cpe(task, N)] runs the closure one or more times on the same
    three buffers before it returns. *)
Fixpoint run_times (task : list T → outcome (list T)) (times : nat)
    (C : list T) : outcome (list T) :=
  match times with
  | O => Ok C
  | S k => C' ← task C; run_times task k C'
  end.

(** The two kernels differ only in where element [e = row * dim + col] of
    block [t] starts. *)
Definition blocked_task (base : Z → Z → Z) (A B C : list T)
    : outcome (list T) :=
  for_loop 0 (N / simd_width) (λ t C,
    ab ← for_loop 0 (dim * dim) (λ i ab,
      va ← _mm256_load_ps A (base t i);
      a ← regs_set (fst ab) i va;
      vb ← _mm256_load_ps B (base t i);
      b ← regs_set (snd ab) i vb;
      Ok (a, b)) (regs_new, regs_new);
    for_loop 0 dim (λ i C,
      for_loop 0 dim (λ j C,
        x ← regs_at (fst ab) (i * dim);
        y ← regs_at (snd ab) j;
        c ← for_loop 1 dim (λ k c,
          x ← regs_at (fst ab) (i * dim + k);
          y ← regs_at (snd ab) (k * dim + j);
          Ok (m256_add c (m256_mul x y))) (m256_mul x y);
        _mm256_store_ps C (base t (i * dim + j)) c) C) C) C.

Definition AOSOA_base (t e : Z) : Z :=
  dim * dim * simd_width * t + simd_width * e.
Definition SOA_base (t e : Z) : Z := e * N + t * simd_width.

(** Where the datum of element [(row, col)] of instance [t] sits. *)
Definition AOSOA_offset (t row col : Z) : Z :=
  (t / simd_width) * (dim * dim * simd_width)
  + (row * dim + col) * simd_width + t mod simd_width.

Definition SOA_offset (t row col : Z) : Z :=
  (row * dim + col) * N + (t / simd_width) * simd_width + t mod simd_width.

(** [ind2] of the permutation and comparison loops of [Tlang_matmatmul]
    ([i], [j], [k] there are the instance, the row and the column). *)
Definition ind2 (i j k : Z) : Z :=
  (i / 8 * dim * dim + j * dim + k) * 8 + i mod 8.

(** A buffer of [N * dim * dim] elements holds the batch [M] (instance,
    row, column) in the layout [off]. *)
Definition holds (off : Z → Z → Z → Z) (buf : list T) (M : Z → Z → Z → T)
    : Prop :=
  Z.of_nat (length buf) = N * dim * dim
  ∧ ∀ t row col, 0 <= t < N → 0 <= row < dim → 0 <= col < dim →
      0 <= off t row col
      ∧ buf !! Z.to_nat (off t row col) = Some (M t row col).

(** The inner product of row [i] of [a] and column [j] of [b], summed from
    the left starting with the [k = 0] term. *)
Definition inner_product (a b : Z → Z → T) (i j : Z) : T :=
  fold_left (λ c k, fadd c (fmul (a i k) (b k j)))
            (seqZ 1 (dim - 1)) (fmul (a i 0) (b 0 j)).

Definition batch_product (MA MB : Z → Z → Z → T) (t i j : Z) : T :=
  inner_product (MA t) (MB t) i j.

(** A vector register whose eight lanes are [f 0 .. f 7]. *)
Definition lanes (v : list T) (f : Z → T) : Prop :=
  length v = 8%nat ∧ ∀ l, 0 <= l < 8 → v !! Z.to_nat l = Some (f l).

(** What lane [l] of the register stored for [(i, j)] in block [tb] is,
    when lane [l] of element [(r, c)] of the inputs of that block is
    [va tb r c l] and [vb tb r c l]. *)
Definition block_result (va vb : Z → Z → Z → Z → T) (tb i j l : Z) : T :=
  inner_product (λ r c, va tb r c l) (λ r c, vb tb r c l) i j.

(** The registers of block [tb] after the load loop. *)
Definition loaded (base : Z → Z → Z) (A B : list T) (tb : Z)
    (ab : list (list T) * list (list T)) : Prop :=
  ∀ e, 0 <= e < dim * dim →
    fst ab !! Z.to_nat e = Some (take 8 (drop (Z.to_nat (base tb e)) A))
    ∧ snd ab !! Z.to_nat e = Some (take 8 (drop (Z.to_nat (base tb e)) B)).

(** The output buffer while the kernel runs: the registers stored so far
    ([done]) are in place. *)
Definition stored (base : Z → Z → Z) (va vb : Z → Z → Z → Z → T)
    (done : Z → Z → Z → Prop) (C : list T) : Prop :=
  Z.of_nat (length C) = N * dim * dim
  ∧ ∀ tb i j l,
      0 <= tb < 32 → 0 <= i < dim → 0 <= j < dim → 0 <= l < 8 →
      done tb i j →
      C !! Z.to_nat (base tb (i * dim + j) + l)
      = Some (block_result va vb tb i j l).

End Kernels.
End Kernels.

(** * The scalar AOS kernel *)

Module AOS.
Section AOS.
Context {T : Type}.
Variable fmul fadd : T → T → T.
(** [T sum = 0]: the value of type [T] that the literal [0] converts to. *)
Variable zero : T.
(** [template <int dim, typename T>]. *)
Variable dim : Z.

Local Open Scope Z_scope.

(** [struct Mat { T d[dim][dim]; }], a list of rows; the three
    [std::vector<Mat>] are lists of these. *)
Local Abbreviation Mat := (list (list T)).

(** [M[t].d[i][j]], read. *)
Definition mat_get (M : list Mat) (t i j : Z) : outcome T :=
  if (t <? 0) || (i <? 0) || (j <? 0) then Undefined
  else match M !! Z.to_nat t with
       | Some mat =>
         match mat !! Z.to_nat i with
         | Some row =>
           match row !! Z.to_nat j with
           | Some v => Ok v
           | None => Undefined
           end
         | None => Undefined
         end
       | None => Undefined
       end.

(** [M[t].d[i][j] = v]. *)
Definition mat_set (M : list Mat) (t i j : Z) (v : T) : outcome (list Mat) :=
  if (t <? 0) || (i <? 0) || (j <? 0) then Undefined
  else match M !! Z.to_nat t with
       | Some mat =>
         match mat !! Z.to_nat i with
         | Some row =>
           if j <? Z.of_nat (length row)
           then Ok (<[Z.to_nat t :=
                        <[Z.to_nat i := <[Z.to_nat j := v]> row]> mat]> M)
           else Undefined
         | None => Undefined
         end
       | None => Undefined
       end.

(** The closure of [AOS_matmatmul], on the three vectors it captures. *)
Definition AOS_task (A B C : list Mat) : outcome (list Mat) :=
  for_loop 0 N (λ t C,
    for_loop 0 dim (λ i C,
      for_loop 0 dim (λ j C,
        sum ← for_loop 0 dim (λ k sum,
                a ← mat_get A t i k;
                b ← mat_get B t k j;
                Ok (fadd sum (fmul a b))) zero;
        mat_set C t i j sum) C) C) C.

(** A vector of [N] matrices of [dim] rows of [dim] entries. *)
Definition shaped (M : list Mat) : Prop :=
  Z.of_nat (length M) = N
  ∧ ∀ t mat, M !! t = Some mat →
      Z.of_nat (length mat) = dim
      ∧ ∀ i row, mat !! i = Some row → Z.of_nat (length row) = dim.

(** The vector [M] holds the batch [F] (instance, row, column). *)
Definition represents (M : list Mat) (F : Z → Z → Z → T) : Prop :=
  ∀ t i j, 0 <= t < N → 0 <= i < dim → 0 <= j < dim →
    mat_get M t i j = Ok (F t i j).

(** The sum that one entry accumulates: from [zero], the terms
    [k = 0 .. upto - 1] in turn. *)
Definition sum_upto (a b : Z → Z → T) (i j upto : Z) : T :=
  fold_left (λ sum k, fadd sum (fmul (a i k) (b k j))) (seqZ 0 upto) zero.

(** While the kernel runs: the entries marked [done] hold their sums. *)
Definition summed (MA MB : Z → Z → Z → T) (done : Z → Z → Z → Prop)
    (C : list Mat) : Prop :=
  shaped C
  ∧ ∀ t i j, 0 <= t < N → 0 <= i < dim → 0 <= j < dim → done t i j →
      mat_get C t i j = Ok (sum_upto (MA t) (MB t) i j dim).

End AOS.
End AOS.

(** * Leaf addresses *)

Module Layout.
Local Open Scope Z_scope.

(** Modelled from the spec: the compiled address of a placed leaf, which
    [tlang.h] defines ([c(j, k)->addr]).  The spec gives it a base offset,
    the stride between consecutive blocks, the stride between the lanes of
    one block, and the repeat count of the leaf's scope. *)
Record Addr : Type := mkAddr {
  leaf_base : Z;
  block_stride : Z;
  lane_stride : Z;
  repeat : Z;
}.

(** Modelled from the spec: [addr.eval(i, n)], "decomposes i into
    block = i / r, lane = i % r, and composes offset = leaf_base +
    block * block_stride + lane * lane_stride". *)
Definition eval (a : Addr) (i n : Z) : Z :=
  leaf_base a + (i / repeat a) * block_stride a
  + (i mod repeat a) * lane_stride a.

(** Modelled from the spec: the address that materialisation gives the
    leaf placed by [buffer(b).stream(0).group(0).group(e).repeat(8)
    .place(..)] in [Tlang_matmatmul] with layout 0, for [e = i * dim + j]:
    the [dim * dim] inner groups hold one leaf each, so each is a block of
    [8] elements, they lie end to end in declaration order, and the
    enclosing group is a block of [8 * dim * dim] elements. *)
Definition aosoa_leaf (dim e : Z) : Addr :=
  mkAddr (8 * e) (8 * dim * dim) 1 8.

End Layout.

(** * IEEE 754 values *)

(** [float32] and [float64], with round to nearest even.  The program's
    [real] is taken to be [float32] (the spec's "single precision"). *)
Module Float32.
Definition prec : Z := 24.
Definition emax : Z := 128.
Definition mul : spec_float → spec_float → spec_float := SFmul prec emax.
Definition add : spec_float → spec_float → spec_float := SFadd prec emax.
Definition sub : spec_float → spec_float → spec_float := SFsub prec emax.
Definition div : spec_float → spec_float → spec_float := SFdiv prec emax.
(** Conversion of an [int]. *)
Definition of_int (z : Z) : spec_float := binary_normalize prec emax z 0 false.
End Float32.

Module Float64.
Definition prec : Z := 53.
Definition emax : Z := 1024.
Definition mul : spec_float → spec_float → spec_float := SFmul prec emax.
Definition add : spec_float → spec_float → spec_float := SFadd prec emax.
Definition sub : spec_float → spec_float → spec_float := SFsub prec emax.
Definition div : spec_float → spec_float → spec_float := SFdiv prec emax.
(** Conversion of an [int64]. *)
Definition of_int (z : Z) : spec_float := binary_normalize prec emax z 0 false.
End Float64.

(** Neither a NaN nor an infinity. *)
Definition is_finite (x : spec_float) : bool :=
  match x with
  | S754_zero _ | S754_finite _ _ _ => true
  | S754_infinity _ | S754_nan => false
  end.

Definition is_nan (x : spec_float) : bool :=
  match x with
  | S754_nan => true
  | _ => false
  end.

(** Buffers of integers for a run of the kernels with [dim = 2]. *)
Definition ramp_A : list Z := (λ k, 1 + k)%Z <$> seqZ 0 1024.
Definition ramp_B : list Z := (λ k, 2 * k + 1)%Z <$> seqZ 0 1024.

(** Constant buffers for [dim = 1] and [dim = 2]: every element of the
    first input is [2.0f], of the second [3.0f]. *)
Definition twos (dim : Z) : list spec_float :=
  replicate (Z.to_nat (N * dim * dim)) (Float32.of_int 2).
Definition threes (dim : Z) : list spec_float :=
  replicate (Z.to_nat (N * dim * dim)) (Float32.of_int 3).
Definition zeros (dim : Z) : list spec_float :=
  replicate (Z.to_nat (N * dim * dim)) (Float32.of_int 0).

(** * Validation of compiled output *)

Module Validation.

(** [1e-5_f] and [1e-4_f]: the [float32] values nearest to the decimal
    literals. *)
Definition tol_1e5 : spec_float := S754_finite false 10995116 (-40).
Definition tol_1e4 : spec_float := S754_finite false 13743895 (-37).

(** The comparison at the end of [Tlang_matmatmul]:
    [TC_ASSERT(std::abs(a - b) < 1e-5_f)], where [a] is the compiled
    kernel's output and [b] the output of [AOSOA_matmul].  (The two
    [TC_P] before it only print.) *)
Definition matmatmul_check (a b : spec_float) : outcome unit :=
  TC_ASSERT (SFltb (SFabs (Float32.sub a b)) tol_1e5).

(** The comparison at the end of [test_mat_vec_mul]:
    [if (std::abs(computed - gt) > 1e-4_f) { ...; TC_ERROR("Failed!"); }],
    where [gt] is the Eigen product. *)
Definition matvecmul_check (computed gt : spec_float) : outcome unit :=
  if SFltb tol_1e4 (SFabs (Float32.sub computed gt))
  then AssertionFailed
  else Ok tt.

(** [2^-14], about [6.1e-5]. *)
Definition two_pow_m14 : spec_float := S754_finite false 8388608 (-37).

End Validation.

(** * The compiled kernel *)

Module Program.
Local Open Scope Z_scope.

(** Modelled from the spec: the result of the layout builder and of
    [prog.store], which [tlang.h] defines.  A placement binds a leaf to a
    buffer ("region 0 = first input, region 1 = second input, region 2 =
    output") and an address; [store] "marks a node as a required output,
    returning a new leaf bound to the storage location". *)
Record Program : Type := mkProgram {
  placements : list (nat * (nat * Layout.Addr));
  stores : list (nat * IR);
  simd_width : Z;
}.

(** [Context(A, B, C, n)]: three buffer pointers and the batch size. *)
Record Context : Type := mkContext {
  buffers : list (list spec_float);
  n : Z;
}.

Definition placement (p : Program) (leaf : nat) : option (nat * Layout.Addr) :=
  (λ x, snd (snd x)) <$> list_find (λ x, fst x = leaf) (placements p).

(** Modelled from the spec: evaluation of the arithmetic tree, "evaluates
    operator nodes with vector add/multiply", one lane at a time; a leaf
    is read at its address. *)
Fixpoint eval_ir (rd : nat → outcome spec_float) (e : IR)
    : outcome spec_float :=
  match e with
  | Leaf id => rd id
  | Multiply a b => x ← eval_ir rd a; y ← eval_ir rd b; Ok (Float32.mul x y)
  | Add a b => x ← eval_ir rd a; y ← eval_ir rd b; Ok (Float32.add x y)
  | Store a => eval_ir rd a
  end.

Definition read_leaf (p : Program) (c : Context) (i : Z) (leaf : nat)
    : outcome spec_float :=
  match placement p leaf with
  | None => AssertionFailed
  | Some (b, a) =>
    let off := Layout.eval a i (n c) in
    if off <? 0 then Undefined
    else match buffers c !! b ≫= λ buf, buf !! Z.to_nat off with
         | Some v => Ok v
         | None => Undefined
         end
  end.

Definition write_leaf (p : Program) (c : Context) (i : Z) (leaf : nat)
    (v : spec_float) : outcome Context :=
  match placement p leaf with
  | None => AssertionFailed
  | Some (b, a) =>
    let off := Layout.eval a i (n c) in
    match buffers c !! b with
    | Some buf =>
      if (0 <=? off) && (off <? Z.of_nat (length buf))
      then Ok (mkContext (<[b := <[Z.to_nat off := v]> buf]> (buffers c)) (n c))
      else Undefined
    | None => Undefined
    end
  end.

(** Modelled from the spec: one block of the compiled loop, "one vector
    load per distinct leaf-address pattern" and then "one vector store
    per output leaf": every lane of the block is computed from the
    buffers as they are when the block starts. *)
Definition run_block (p : Program) (blk : Z) (c0 : Context)
    : outcome Context :=
  for_loop 0 (simd_width p) (λ lane c,
    let i := blk * simd_width p + lane in
    foldl (λ oc st, c ← oc;
             v ← eval_ir (read_leaf p c0 i) (snd st);
             write_leaf p c i (fst st) v)
          (Ok c) (stores p)) c0.

(** Modelled from the spec: the call [prog(Context(..))], "a loop over
    n / width blocks". *)
Definition run (p : Program) (c : Context) : outcome Context :=
  for_loop 0 (n c / simd_width p) (λ blk c, run_block p blk c) c.

End Program.

(** Modelled from the spec: a leaf placed alone by
    [buffer(b).stream(0).group().place(..)], without [repeat]: instance
    [i] is element [i] of the buffer. *)
Definition scalar_addr : Layout.Addr := Layout.mkAddr 0 1 1 1.

(** [test_vec_add], with [z0] what the uninitialised array [z] happens to
    hold: leaves [a], [b] and the stored [c] are [0], [1], [2]. *)
Definition vec_add_prog : Program.Program :=
  Program.mkProgram
    [(0%nat, (0%nat, scalar_addr)); (1%nat, (1%nat, scalar_addr));
     (2%nat, (2%nat, scalar_addr))]
    [(2%nat, Add (Leaf 0) (Leaf 1))]
    1.

Definition vec_add_x : list spec_float :=
  (λ i, Float32.of_int i) <$> seqZ 0 16.
Definition vec_add_y : list spec_float :=
  (λ i, Float32.of_int (-2 * i)) <$> seqZ 0 16.

Definition vec_add_kernel (x y z0 : list spec_float)
    : outcome (list spec_float) :=
  c ← Program.run vec_add_prog (Program.mkContext [x; y; z0] 16);
  match Program.buffers c !! 2%nat with
  | Some z => Ok z
  | None => Undefined
  end.

Definition test_vec_add (z0 : list spec_float) : outcome unit :=
  z ← vec_add_kernel vec_add_x vec_add_y z0;
  _ ← for_loop 0 16 (λ i _,
        match z !! Z.to_nat i with
        | Some zi => TC_ASSERT (SFeqb zi (Float32.of_int (- i)))
        | None => Undefined
        end) tt;
  Ok tt.

(** * The timing harness *)

(** [real] to [float64] (exact) and back (rounded). *)
Definition real_to_float64 (x : spec_float) : spec_float :=
  match x with
  | S754_finite s m e =>
    binary_normalize Float64.prec Float64.emax
      (if s then Zneg m else Zpos m) e s
  | _ => x
  end.

Definition float64_to_real (x : spec_float) : spec_float :=
  match x with
  | S754_finite s m e =>
    binary_normalize Float32.prec Float32.emax
      (if s then Zneg m else Zpos m) e s
  | _ => x
  end.

(** [constexpr real cpu_frequency = 4.2_f]. *)
Definition cpu_frequency : spec_float := S754_finite false 8808038 (-21).

Module Cpe.
Section measure_cpe.
(** What the closure [target] acts on, and the closure. *)
Context {W : Type}.
Variable target : W → W.
(** [Time::get_time()] is the system clock: [clock k] is what its call
    number [k] returns (seconds, [float64]). *)
Variable clock : nat → spec_float.

Local Open Scope Z_scope.

Record state : Type := mkState {
  world : W;
  calls : Z;      (* invocations of [target] so far *)
  reads : nat;    (* calls of [Time::get_time] so far *)
}.

Definition get_time (st : state) : spec_float * state :=
  (clock (reads st), mkState (world st) (calls st) (S (reads st))).

(** [for (i = 0; i < batch_size; i++) target();] *)
Definition invoke (batch_size : Z) (st : state) : state :=
  mkState (Z.iter batch_size target (world st))
          (calls st + Z.max 0 batch_size) (reads st).

(** The [double] literals [0.05] and [1e9_f64]. *)
Definition c_0_05 : spec_float := S754_finite false 7205759403792794 (-57).
Definition c_1e9 : spec_float := Float64.of_int 1000000000.

(** The first loop, [while (true)], which doubles [batch_size]; [None]
    when the iterations allowed by [fuel] do not reach the [break]. *)
Fixpoint estimate (fuel : nat) (time_second : spec_float) (batch_size : Z)
    (st : state) : option Z * state :=
  match fuel with
  | O => (None, st)
  | S fuel' =>
    let (t0, st) := get_time st in
    let st := invoke batch_size st in
    let (t1, st) := get_time st in
    let t := Float64.sub t1 t0 in
    if SFltb t (Float64.mul c_0_05 (real_to_float64 time_second))
    then estimate fuel' time_second (batch_size * 2) st
    else (Some batch_size, st)
  end.

(** The second loop, [while (Time::get_time() - start_t < time_second)]. *)
Fixpoint timed (fuel : nat) (time_second : spec_float) (batch_size : Z)
    (start_t : spec_float) (total_batches : Z) (st : state)
    : option Z * state :=
  match fuel with
  | O => (None, st)
  | S fuel' =>
    let (now, st) := get_time st in
    if SFltb (Float64.sub now start_t) (real_to_float64 time_second)
    then timed fuel' time_second batch_size start_t
           (total_batches + batch_size) (invoke batch_size st)
    else (Some total_batches, st)
  end.

(** [real measure_cpe(target, elements_per_call, time_second)]: the value
    returned, if the loops end within [fuel] iterations each, and the
    state reached in any case. *)
Definition measure_cpe (fuel : nat) (elements_per_call : Z)
    (time_second : spec_float) (st : state) : option spec_float * state :=
  if SFeqb time_second (Float32.of_int 0)
  then (Some S754_nan, invoke 1 st)
  else
    match estimate fuel time_second 1 st with
    | (None, st) => (None, st)
    | (Some batch_size, st) =>
      let (start_t, st) := get_time st in
      match timed fuel time_second batch_size start_t 0 st with
      | (None, st) => (None, st)
      | (Some total_batches, st) =>
        let (end_t, st) := get_time st in
        let elasped_cycles :=
          Float64.mul (Float64.mul (Float64.sub end_t start_t) c_1e9)
                      (real_to_float64 cpu_frequency) in
        (Some (float64_to_real
                 (Float64.div elasped_cycles
                    (Float64.of_int (total_batches * elements_per_call)))),
         st)
      end
    end.

(** [st'] is [st] after [k] more invocations of the target and [r] more
    clock readings, and nothing else. *)
Definition advanced (st : state) (k : Z) (r : nat) (st' : state) : Prop :=
  0 <= k
  ∧ calls st' = calls st + k
  ∧ world st' = Nat.iter (Z.to_nat k) target (world st)
  ∧ reads st' = (reads st + r)%nat.

End measure_cpe.
End Cpe.

(** * The permutation and validation loops of [Tlang_matmatmul] *)

Module Matmatmul.
Local Open Scope Z_scope.

Section Matmatmul.
Context {T : Type}.
(** [template <int dim>]. *)
Variable dim : Z.
(** [addr j k i] is [c(j, k)->addr.eval(i, N)], the address that the
    layout compiler of [tlang.h] gave to the output leaf [(j, k)]; the
    loops only call it, so it is a parameter. *)
Variable addr : Z → Z → Z → Z.

(** [buf[z]] on a raw pointer, for reading and for writing: unchecked in
    the source. *)
Definition buf_read (buf : list T) (z : Z) : outcome T :=
  if z <? 0 then Undefined
  else match buf !! Z.to_nat z with
       | Some v => Ok v
       | None => Undefined
       end.

Definition buf_write (buf : list T) (z : Z) (v : T) : outcome (list T) :=
  if (0 <=? z) && (z <? Z.of_nat (length buf))
  then Ok (<[Z.to_nat z := v]> buf)
  else Undefined.

(** The loop that fills [A_] and [B_] from [A] and [B]; the state is the
    pair [(A_, B_)]. *)
Definition permute (A B : list T) (s : list T * list T)
    : outcome (list T * list T) :=
  for_loop 0 N (λ i s,
    for_loop 0 dim (λ j s,
      for_loop 0 dim (λ k s,
        let ind1 := addr j k i in
        let ind2 := (i / 8 * dim * dim + j * dim + k) * 8 + i mod 8 in
        a ← buf_read A ind2;
        A_ ← buf_write (fst s) ind1 a;
        b ← buf_read B ind2;
        B_ ← buf_write (snd s) ind1 b;
        Ok (A_, B_)) s) s) s.

(** What the permutation has done so far: the instances marked [done]
    are in place in both buffers. *)
Definition permuted (MA MB : Z → Z → Z → T) (done : Z → Z → Z → Prop)
    (s : list T * list T) : Prop :=
  Z.of_nat (length (fst s)) = N * dim * dim
  ∧ Z.of_nat (length (snd s)) = N * dim * dim
  ∧ ∀ i j k, 0 <= i < N → 0 <= j < dim → 0 <= k < dim → done i j k →
      fst s !! Z.to_nat (addr j k i) = Some (MA i j k)
      ∧ snd s !! Z.to_nat (addr j k i) = Some (MB i j k).

End Matmatmul.

(** The loop that compares the compiled kernel's output [C] with the
    reference output [D]. *)
Definition validate (dim : Z) (addr : Z → Z → Z → Z)
    (C D : list spec_float) : outcome unit :=
  for_loop 0 N (λ i _,
    for_loop 0 dim (λ j _,
      for_loop 0 dim (λ k _,
        let ind1 := addr j k i in
        let ind2 := (i / 8 * dim * dim + j * dim + k) * 8 + i mod 8 in
        a ← buf_read C ind1;
        b ← buf_read D ind2;
        Validation.matmatmul_check a b) tt) tt) tt.

Section StoreLoop.
Context {Expr Prog : Type}.
(** [prog.store(e)]: it acts on the program and returns an expression;
    the loop only calls it, so it is a parameter. *)
Variable store : Prog → Expr → Prog * Expr.
Variable layout dim : Z.

(** The loop [c(i, j) = prog.store(c(i, j))] over the product matrix; with
    a layout other than 0 the indices are swapped.  The state is the
    program and the matrix [c]. *)
Definition store_loop (s : Prog * Tlang.Matrix Expr)
    : outcome (Prog * Tlang.Matrix Expr) :=
  for_loop 0 dim (λ i s,
    for_loop 0 dim (λ j s,
      let r := if layout =? 0 then i else j in
      let c := if layout =? 0 then j else i in
      e ← Tlang.get2 (snd s) r c;
      let pe := store (fst s) e in
      c' ← Tlang.set2 (snd s) r c (snd pe);
      Ok (fst pe, c')) s) s.

(** What the store loop has done so far to a matrix that held [f]: the
    entries marked [done] are results of [store] on the original entry,
    the others are untouched. *)
Definition wrapped (f : Z → Z → Expr) (done : Z → Z → Prop)
    (s : Prog * Tlang.Matrix Expr) : Prop :=
  ∃ g, Tlang.grid (snd s) dim dim g
    ∧ ∀ i j, 0 <= i < dim → 0 <= j < dim →
        (done i j → ∃ p, g i j = snd (store p (f i j)))
        ∧ (¬ done i j → g i j = f i j).

End StoreLoop.

End Matmatmul.

(** * The kernels under the harness *)

(** The closure [task] as [measure_cpe] sees it: it acts on the output
    buffer, and once a run has faulted nothing more happens. *)
Definition buffer_target {T : Type} (task : list T → outcome (list T))
    (w : outcome (list T)) : outcome (list T) :=
  w ≫= task.

(** [real AOSOA_matmul<dim>(A, B, C)] and [real SOA_matmul<dim>(A, B, C)]:
    [return measure_cpe(task, N)], where the budget is the value of the
    global [default_measurement_time] at the call. *)
Definition AOSOA_matmul {T : Type} (fmul fadd : T → T → T) (dim : Z)
    (clock : nat → spec_float) (fuel : nat)
    (default_measurement_time : spec_float) (A B C : list T)
    : option spec_float * Cpe.state (W:=outcome (list T)) :=
  Cpe.measure_cpe (buffer_target (Kernels.AOSOA_task fmul fadd dim A B))
    clock fuel N default_measurement_time (Cpe.mkState (Ok C) 0 0).

Definition SOA_matmul {T : Type} (fmul fadd : T → T → T) (dim : Z)
    (clock : nat → spec_float) (fuel : nat)
    (default_measurement_time : spec_float) (A B C : list T)
    : option spec_float * Cpe.state (W:=outcome (list T)) :=
  Cpe.measure_cpe (buffer_target (Kernels.SOA_task fmul fadd dim A B))
    clock fuel N default_measurement_time (Cpe.mkState (Ok C) 0 0).

(** A clock that advances half a second between two readings, a budget of
    a quarter of a second, and a closure that counts its invocations. *)
Definition half_second_clock (k : nat) : spec_float :=
  binary_normalize Float64.prec Float64.emax (Z.of_nat k) (-1) false.
Definition quarter_second : spec_float :=
  Float32.div (Float32.of_int 1) (Float32.of_int 4).
Definition counting_start : Cpe.state (W:=nat) := Cpe.mkState 0%nat 0 0.

(** Concrete operands: a [1 x 2] row and a [2 x 1] column, and two
    [1 x 2] rows, over distinct leaves. *)
Definition row12 : Tlang.Matrix IR := Tlang.mkMatrix 1 2 [Leaf 0; Leaf 1].
Definition col21 : Tlang.Matrix IR := Tlang.mkMatrix 2 1 [Leaf 2; Leaf 3].
Definition row12' : Tlang.Matrix IR := Tlang.mkMatrix 1 2 [Leaf 4; Leaf 5].
Definition sq22 : Tlang.Matrix IR :=
  Tlang.mkMatrix 2 2 [Leaf 0; Leaf 1; Leaf 2; Leaf 3].
Definition sq22' : Tlang.Matrix IR :=
  Tlang.mkMatrix 2 2 [Leaf 4; Leaf 5; Leaf 6; Leaf 7].

(** * Properties *)

(** ** Loops *)

Lemma for_range_inv {St : Type} (P : Z → St → Prop) body cnt : ∀ lo (s : St),
  P lo s →
  (∀ i s, (lo <= i < lo + Z.of_nat cnt)%Z → P i s →
     ∃ s', body i s = Ok s' ∧ P (i + 1)%Z s') →
  ∃ s', for_range lo cnt body s = Ok s' ∧ P (lo + Z.of_nat cnt)%Z s'.
Proof.
  induction cnt as [|c IH]; intros lo s H0 Hstep.
  - exists s. split; [done|]. by replace (lo + Z.of_nat 0)%Z with lo by lia.
  - destruct (Hstep lo s) as (s1 & E1 & P1); [lia|done|].
    destruct (IH (lo + 1)%Z s1) as (s2 & E2 & P2); [done| |].
    + intros i s' Hi. apply Hstep. lia.
    + exists s2. split.
      * cbn [for_range]. rewrite E1. exact E2.
      * by replace (lo + Z.of_nat (S c))%Z with (lo + 1 + Z.of_nat c)%Z by lia.
Qed.

Lemma for_loop_inv {St : Type} (P : Z → St → Prop) body lo hi (s : St) :
  (lo <= hi)%Z →
  P lo s →
  (∀ i s, (lo <= i < hi)%Z → P i s →
     ∃ s', body i s = Ok s' ∧ P (i + 1)%Z s') →
  ∃ s', for_loop lo hi body s = Ok s' ∧ P hi s'.
Proof.
  intros Hle H0 Hstep. unfold for_loop.
  destruct (for_range_inv P body (Z.to_nat (hi - lo)) lo s) as (s' & E & HP);
    [done| |].
  - intros i s' Hi. apply Hstep. lia.
  - exists s'. split; [done|].
    by replace (lo + Z.of_nat (Z.to_nat (hi - lo)))%Z with hi in HP by lia.
Qed.

Lemma for_loop_inv_post {St : Type} (P : Z → St → Prop) (Q : St → Prop)
    body lo hi (s : St) :
  (lo <= hi)%Z →
  P lo s →
  (∀ i s, (lo <= i < hi)%Z → P i s →
     ∃ s', body i s = Ok s' ∧ P (i + 1)%Z s') →
  (∀ s', P hi s' → Q s') →
  ∃ s', for_loop lo hi body s = Ok s' ∧ Q s'.
Proof.
  intros Hle H0 Hstep Hpost.
  destruct (for_loop_inv P body lo hi s) as (s' & E & HP); eauto.
Qed.

Lemma bind_Ok {X Y : Type} (x : X) (f : X → outcome Y) : (Ok x ≫= f) = f x.
Proof. reflexivity. Qed.

Lemma for_loop_empty {St : Type} body lo hi (s : St) :
  (hi <= lo)%Z → for_loop lo hi body s = Ok s.
Proof.
  intros H. unfold for_loop. by replace (Z.to_nat (hi - lo)) with O by lia.
Qed.

(** ** Row-major indices *)

Section Arithmetic.
Local Open Scope Z_scope.

Lemma row_col_inj_gen d r c r' c' :
  0 <= c < d → 0 <= c' < d →
  r * d + c = r' * d + c' → r = r' ∧ c = c'.
Proof.
  intros Hc Hc' E.
  assert (r = r'); [|split; [done|subst; lia]].
  transitivity ((r * d + c) / d).
  - apply Z.div_unique_pos with c; lia.
  - rewrite E. symmetry. apply Z.div_unique_pos with c'; lia.
Qed.

Lemma row_col_range_gen rows cols r c :
  0 <= r < rows → 0 <= c < cols → 0 <= r * cols + c < rows * cols.
Proof.
  intros Hr Hc.
  assert (0 <= r * cols) by (apply Z.mul_nonneg_nonneg; lia).
  assert (r * cols <= (rows - 1) * cols)
    by (apply Z.mul_le_mono_nonneg_r; lia).
  lia.
Qed.

Lemma aligned_apart x y :
  x mod 8 = 0 → y mod 8 = 0 → x ≠ y → x + 8 <= y ∨ y + 8 <= x.
Proof. intros. Z.div_mod_to_equations. lia. Qed.

End Arithmetic.

(** ** Matrix accessors *)

Section MatrixFacts.
Context {Expr : Type}.
Implicit Types (M : Tlang.Matrix Expr) (i j : Z).
Import Tlang.
Local Open Scope Z_scope.

Lemma TC_ASSERT_Ok b : TC_ASSERT b = Ok tt ↔ b = true.
Proof. destruct b; cbn; split; congruence. Qed.

Lemma entries_at_Ok (l : list Expr) z :
  0 <= z < Z.of_nat (length l) →
  ∃ e, l !! Z.to_nat z = Some e ∧ entries_at l z = Ok e.
Proof.
  intros Hz. unfold entries_at.
  destruct (Z.ltb_spec z 0); [lia|].
  destruct (lookup_lt_is_Some_2 l (Z.to_nat z)) as [e He]; [lia|].
  exists e. by rewrite He.
Qed.

Lemma entries_at_not_assert (l : list Expr) z :
  entries_at l z ≠ AssertionFailed.
Proof. unfold entries_at. by repeat case_match. Qed.

Lemma get2_unfold M i j :
  get2 M i j =
    if (0 <=? i) && (i <? n M) && ((0 <=? j) && (j <? n M))
    then entries_at (entries M) (i * m M + j)
    else AssertionFailed.
Proof.
  unfold get2. destruct ((0 <=? i) && (i <? n M)); cbn; [|done].
  by destruct ((0 <=? j) && (j <? n M)).
Qed.

Lemma get1_unfold M i :
  get1 M i =
    if (0 <=? i) && (i <? n M * m M) && ((n M =? 1) || (m M =? 1))
    then entries_at (entries M) i
    else AssertionFailed.
Proof.
  unfold get1. destruct ((0 <=? i) && (i <? n M * m M)); cbn; [|done].
  by destruct ((n M =? 1) || (m M =? 1)).
Qed.

Lemma set1_unfold M i e :
  set1 M i e =
    if (0 <=? i) && (i <? n M * m M) && ((n M =? 1) || (m M =? 1))
    then l ← entries_set (entries M) i e; Ok (mkMatrix (n M) (m M) l)
    else AssertionFailed.
Proof.
  unfold set1. destruct ((0 <=? i) && (i <? n M * m M)); cbn; [|done].
  by destruct ((n M =? 1) || (m M =? 1)).
Qed.

Lemma set2_unfold M i j e :
  set2 M i j e =
    if (0 <=? i) && (i <? n M) && ((0 <=? j) && (j <? n M))
    then l ← entries_set (entries M) (i * m M + j) e;
         Ok (mkMatrix (n M) (m M) l)
    else AssertionFailed.
Proof.
  unfold set2. destruct ((0 <=? i) && (i <? n M)); cbn; [|done].
  by destruct ((0 <=? j) && (j <? n M)).
Qed.

Lemma entries_set_bind_not_assert (l : list Expr) z e (k : list Expr → Matrix Expr) :
  (l' ← entries_set l z e; Ok (k l')) ≠ AssertionFailed.
Proof. unfold entries_set. by case_match. Qed.

Lemma square_index_in_range M i j :
  wf M → n M = m M → 0 <= i < n M → 0 <= j < m M →
  0 <= i * m M + j < Z.of_nat (length (entries M)).
Proof. intros [_ ->] E Hi Hj. rewrite E in *. nia. Qed.

(** C9: the 1-D accessor [operator()(int i)] (both overloads) passes its
    assertions exactly when [n == 1 || m == 1] and [0 <= i < n * m]; on a
    matrix with [n > 1] and [m > 1], or with [i] outside that range, it
    fails an assertion; on a matrix as constructed, a permitted access
    returns [entries[i]]. *)
Theorem get1_permitted_iff_vector_in_range M i e0 :
  (get1 M i = AssertionFailed
     ↔ ¬ ((n M = 1 ∨ m M = 1) ∧ 0 <= i < n M * m M))
  ∧ (set1 M i e0 = AssertionFailed
     ↔ ¬ ((n M = 1 ∨ m M = 1) ∧ 0 <= i < n M * m M))
  ∧ ((1 < n M ∧ 1 < m M) ∨ ¬ (0 <= i < n M * m M) →
     get1 M i = AssertionFailed ∧ set1 M i e0 = AssertionFailed)
  ∧ (wf M → (n M = 1 ∨ m M = 1) → 0 <= i < n M * m M →
     ∃ e, entries M !! Z.to_nat i = Some e ∧ get1 M i = Ok e).
Proof.
  assert (Hb : (0 <=? i) && (i <? n M * m M) && ((n M =? 1) || (m M =? 1))
               = true ↔ (n M = 1 ∨ m M = 1) ∧ 0 <= i < n M * m M).
  { rewrite !andb_true_iff, orb_true_iff, Z.leb_le, Z.ltb_lt, !Z.eqb_eq.
    tauto. }
  assert (Hg : get1 M i = AssertionFailed
               ↔ ¬ ((n M = 1 ∨ m M = 1) ∧ 0 <= i < n M * m M)).
  { rewrite get1_unfold, <- Hb.
    destruct ((0 <=? i) && (i <? n M * m M) && ((n M =? 1) || (m M =? 1))).
    - split; [intros H; by apply entries_at_not_assert in H|tauto].
    - split; [congruence|done]. }
  assert (Hs : set1 M i e0 = AssertionFailed
               ↔ ¬ ((n M = 1 ∨ m M = 1) ∧ 0 <= i < n M * m M)).
  { rewrite set1_unfold, <- Hb.
    destruct ((0 <=? i) && (i <? n M * m M) && ((n M =? 1) || (m M =? 1))).
    - split; [intros H; by apply entries_set_bind_not_assert in H|tauto].
    - split; [congruence|done]. }
  split; [exact Hg|]. split; [exact Hs|]. split.
  - intros H. rewrite Hg, Hs. split; lia.
  - intros [_ Hlen] Hv Hi. rewrite get1_unfold.
    assert (Hin : (n M = 1 ∨ m M = 1) ∧ 0 <= i < n M * m M) by done.
    apply Hb in Hin as ->.
    apply entries_at_Ok. lia.
Qed.

(** C10: the 2-D accessor [operator()(int i, int j)] (both overloads)
    fails an assertion exactly when [0 <= i < n] or [0 <= j < n] is
    violated: the column index is compared with the row count [n], not
    with [m].  On a square matrix the check is exact; on a non-square
    matrix (as constructed, so [0 <= m]) a column index with [m <= j < n] passes the assertions (the
    access then goes to [entries[i * m + j]]), and a valid column index
    with [n <= j < m] fails them. *)
Theorem get2_checks_column_against_rows M i j e0 :
  (get2 M i j = AssertionFailed ↔ ¬ (0 <= i < n M ∧ 0 <= j < n M))
  ∧ (set2 M i j e0 = AssertionFailed ↔ ¬ (0 <= i < n M ∧ 0 <= j < n M))
  ∧ (wf M → n M = m M →
     ((∃ e, get2 M i j = Ok e) ↔ 0 <= i < n M ∧ 0 <= j < m M))
  ∧ (wf M → 0 <= i < n M → m M <= j < n M →
     get2 M i j ≠ AssertionFailed
     ∧ get2 M i j = entries_at (entries M) (i * m M + j))
  ∧ (0 <= i < n M → n M <= j < m M → get2 M i j = AssertionFailed).
Proof.
  assert (Hb : (0 <=? i) && (i <? n M) && ((0 <=? j) && (j <? n M)) = true
               ↔ 0 <= i < n M ∧ 0 <= j < n M).
  { rewrite !andb_true_iff, !Z.leb_le, !Z.ltb_lt. tauto. }
  assert (Hg : get2 M i j = AssertionFailed
               ↔ ¬ (0 <= i < n M ∧ 0 <= j < n M)).
  { rewrite get2_unfold, <- Hb.
    destruct ((0 <=? i) && (i <? n M) && ((0 <=? j) && (j <? n M))).
    - split; [intros H; by apply entries_at_not_assert in H|tauto].
    - split; [congruence|done]. }
  assert (Hs : set2 M i j e0 = AssertionFailed
               ↔ ¬ (0 <= i < n M ∧ 0 <= j < n M)).
  { rewrite set2_unfold, <- Hb.
    destruct ((0 <=? i) && (i <? n M) && ((0 <=? j) && (j <? n M))).
    - split; [intros H; by apply entries_set_bind_not_assert in H|tauto].
    - split; [congruence|done]. }
  split; [exact Hg|]. split; [exact Hs|]. split; [|split].
  - intros Hwf Hsq. split.
    + intros [e He]. rewrite <- Hsq.
      destruct (decide (0 <= i < n M ∧ 0 <= j < n M)) as [|Hn]; [done|].
      apply Hg in Hn. congruence.
    + intros [Hi Hj]. rewrite get2_unfold.
      assert (Hin : 0 <= i < n M ∧ 0 <= j < n M) by lia.
      apply Hb in Hin as ->.
      destruct (entries_at_Ok (entries M) (i * m M + j)) as (e & _ & He);
        [by apply square_index_in_range|].
      by exists e.
  - intros [Hnm _] Hi Hj.
    assert (Hin : 0 <= i < n M ∧ 0 <= j < n M) by nia.
    split; [rewrite Hg; tauto|].
    rewrite get2_unfold. by apply Hb in Hin as ->.
  - intros Hi Hj. rewrite Hg. lia.
Qed.

End MatrixFacts.

Lemma get1_permitted_iff_vector_in_range_witness :
  ((1 < Tlang.n sq22 ∧ 1 < Tlang.m sq22)
   ∨ ¬ (0 <= 0 < Tlang.n sq22 * Tlang.m sq22))%Z
  ∧ Tlang.get1 sq22 0 = AssertionFailed
  ∧ Tlang.set1 sq22 0 (Leaf 9) = AssertionFailed.
Proof.
  assert (H : ((1 < Tlang.n sq22 ∧ 1 < Tlang.m sq22)
               ∨ ¬ (0 <= 0 < Tlang.n sq22 * Tlang.m sq22))%Z)
    by (left; cbn; lia).
  split; [exact H|].
  exact (proj1 (proj2 (proj2
           (get1_permitted_iff_vector_in_range sq22 0 (Leaf 9)))) H).
Defined.

Lemma get2_checks_column_against_rows_witness :
  Tlang.wf col21
  ∧ (0 <= 0 < Tlang.n col21)%Z
  ∧ (Tlang.m col21 <= 1 < Tlang.n col21)%Z
  ∧ Tlang.get2 col21 0 1 ≠ AssertionFailed
  ∧ Tlang.get2 col21 0 1
    = Tlang.entries_at (Tlang.entries col21) (0 * Tlang.m col21 + 1).
Proof.
  assert (Hwf : Tlang.wf col21) by (unfold Tlang.wf; cbn; lia).
  assert (Hi : (0 <= 0 < Tlang.n col21)%Z) by (cbn; lia).
  assert (Hj : (Tlang.m col21 <= 1 < Tlang.n col21)%Z) by (cbn; lia).
  split; [exact Hwf|]. split; [exact Hi|]. split; [exact Hj|].
  exact (proj1 (proj2 (proj2 (proj2
           (get2_checks_column_against_rows col21 0 1 (Leaf 9)))))
           Hwf Hi Hj).
Defined.

(** ** Matrix product and sum *)

Section MatrixAlgebra.
Context {Expr : Type}.
Variable Expr_new : Expr.
Variable Expr_mul Expr_add : Expr → Expr → Expr.
Import Tlang.
Local Open Scope Z_scope.

Lemma filled_ext (done done' : Z → Z → Prop) (M : Matrix Expr) rows cols
    (f f' : Z → Z → Expr) :
  (∀ i j, 0 <= i < rows → 0 <= j < cols → done' i j →
     done i j ∧ f i j = f' i j) →
  filled done M rows cols f → filled done' M rows cols f'.
Proof.
  intros Himp (Hn & Hm & Hl & H). repeat split; try done.
  intros i j Hi Hj Hd. destruct (Himp i j Hi Hj Hd) as [Hd' <-]. auto.
Qed.

Lemma get2_filled done (M : Matrix Expr) rows cols (f : Z → Z → Expr) i j :
  filled done M rows cols f → cols <= rows →
  0 <= i < rows → 0 <= j < cols → done i j →
  get2 M i j = Ok (f i j).
Proof.
  intros (Hn & Hm & Hl & H) Hle Hi Hj Hd. rewrite get2_unfold, Hn, Hm.
  replace ((0 <=? i) && (i <? rows) && ((0 <=? j) && (j <? rows))) with true
    by (symmetry; rewrite !andb_true_iff, !Z.leb_le, !Z.ltb_lt; lia).
  pose proof (row_col_range_gen rows cols i j Hi Hj) as Hr.
  unfold entries_at. destruct (Z.ltb_spec (i * cols + j) 0); [lia|].
  by rewrite (H i j Hi Hj Hd).
Qed.

Lemma set2_filled done (M : Matrix Expr) rows cols (f : Z → Z → Expr) i j e :
  filled done M rows cols f → cols <= rows →
  0 <= i < rows → 0 <= j < cols →
  ∃ M', set2 M i j e = Ok M'
    ∧ filled (λ i' j', done i' j' ∨ (i' = i ∧ j' = j)) M' rows cols
        (λ i' j', if decide (i' = i ∧ j' = j) then e else f i' j').
Proof.
  intros (Hn & Hm & Hl & H) Hle Hi Hj. rewrite set2_unfold, Hn, Hm.
  replace ((0 <=? i) && (i <? rows) && ((0 <=? j) && (j <? rows))) with true
    by (symmetry; rewrite !andb_true_iff, !Z.leb_le, !Z.ltb_lt; lia).
  pose proof (row_col_range_gen rows cols i j Hi Hj) as Hr.
  unfold entries_set.
  replace ((0 <=? i * cols + j)
           && (i * cols + j <? Z.of_nat (length (entries M)))) with true
    by (symmetry; rewrite !andb_true_iff, !Z.leb_le, !Z.ltb_lt; lia).
  rewrite bind_Ok. eexists. split; [reflexivity|].
  repeat split; cbn [n m entries]; [rewrite length_insert; lia|].
  intros i' j' Hi' Hj' Hd.
  pose proof (row_col_range_gen rows cols i' j' Hi' Hj') as Hr'.
  destruct (decide (i' = i ∧ j' = j)) as [[-> ->]|Hne].
  - apply list_lookup_insert_eq. lia.
  - rewrite list_lookup_insert_ne.
    + apply H; [done..|]. destruct Hd as [Hd|Hd]; [done|tauto].
    + intros E. apply Hne. apply (row_col_inj_gen cols); [lia..|]. lia.
Qed.

(** [operator*] and [operator+] abort on mismatched shapes. *)
Lemma operator_mul_shape_mismatch (A B : Matrix Expr) :
  m A ≠ n B → operator_mul Expr_new Expr_mul Expr_add A B = AssertionFailed.
Proof.
  intros H. unfold operator_mul.
  by destruct (Z.eqb_spec (m A) (n B)).
Qed.

Lemma operator_add_shape_mismatch (A B : Matrix Expr) :
  n A ≠ n B ∨ m A ≠ m B →
  operator_add Expr_new Expr_add A B = AssertionFailed.
Proof.
  intros H. unfold operator_add.
  destruct (Z.eqb_spec (n A) (n B)); [|done].
  destruct (Z.eqb_spec (m A) (m B)); [|done].
  tauto.
Qed.

Lemma Matrix_new_filled rows cols f :
  0 <= rows * cols →
  ∃ C, Matrix_new Expr_new rows cols = Ok C
    ∧ filled (λ _ _, False) C rows cols f.
Proof.
  intros H. unfold Matrix_new. destruct (Z.ltb_spec (rows * cols) 0); [lia|].
  eexists. split; [reflexivity|]. repeat split; cbn [n m entries].
  - rewrite length_replicate. lia.
  - intros; tauto.
Qed.

(** On matrices with no more columns than rows, where the 2-D accessor's
    check is sound, [operator+] is the entrywise sum. *)
Lemma operator_add_tall (A B : Matrix Expr) rows cols fa fb :
  grid A rows cols fa → grid B rows cols fb → 0 <= cols <= rows →
  ∃ C, operator_add Expr_new Expr_add A B = Ok C
    ∧ grid C rows cols (λ i j, Expr_add (fa i j) (fb i j)).
Proof.
  intros HA HB Hc.
  pose proof HA as (HnA & HmA & _). pose proof HB as (HnB & HmB & _).
  unfold operator_add. rewrite HnA, HnB, HmA, HmB, !Z.eqb_refl. cbn [TC_ASSERT].
  rewrite !bind_Ok.
  destruct (Matrix_new_filled rows cols (λ i j, Expr_add (fa i j) (fb i j)))
    as (C0 & -> & HC0); [nia|].
  rewrite bind_Ok.
  apply (for_loop_inv_post (λ i C,
    filled (λ i' _, i' < i) C rows cols (λ i j, Expr_add (fa i j) (fb i j))));
    [lia| | |].
  - eapply filled_ext; [|exact HC0]. cbn. intros; lia.
  - intros i C1 Hi HC1.
    apply (for_loop_inv_post (λ j C,
      filled (λ i' j', i' < i ∨ (i' = i ∧ j' < j)) C rows cols
        (λ i j, Expr_add (fa i j) (fb i j)))); [lia| | |].
    + eapply filled_ext; [|exact HC1]. cbn. intros; split; [lia|done].
    + intros j C2 Hj HC2.
      rewrite (get2_filled _ A rows cols fa i j HA) by (done || lia).
      rewrite bind_Ok.
      rewrite (get2_filled _ B rows cols fb i j HB) by (done || lia).
      rewrite bind_Ok.
      destruct (set2_filled _ C2 rows cols _ i j
                  (Expr_add (fa i j) (fb i j)) HC2) as (C' & -> & HC');
        [lia..|].
      eexists. split; [reflexivity|].
      eapply filled_ext; [|exact HC']. cbn. intros i' j' Hi' Hj' Hd.
      split; [lia|]. by destruct (decide (i' = i ∧ j' = j)) as [[-> ->]|].
    + intros C' HC'. eapply filled_ext; [|exact HC']. cbn.
      intros; split; [lia|done].
  - intros C' HC'. eapply filled_ext; [|exact HC']. cbn.
    intros; split; [lia|done].
Qed.

Local Abbreviation dot_upto := (Tlang.dot_upto Expr_mul Expr_add).

Lemma dot_upto_succ fa fb i j k :
  1 <= k →
  dot_upto fa fb i j (k + 1)
  = Expr_add (dot_upto fa fb i j k) (Expr_mul (fa i k) (fb k j)).
Proof.
  intros Hk. unfold Tlang.dot_upto.
  replace (k + 1 - 1) with ((k - 1) + 1) by lia.
  rewrite seqZ_app by lia.
  replace (1 + (k - 1)) with k by lia.
  rewrite (seqZ_cons k 1), (seqZ_nil _ (Z.pred 1)) by lia.
  by rewrite fold_left_app.
Qed.

(** On operands where the 2-D accessor's check is sound (no more columns
    than rows in [A], [B] and the result), [operator*] is the matrix of
    left-nested inner products. *)
Lemma operator_mul_tall (A B : Matrix Expr) rows inner cols fa fb :
  grid A rows inner fa → grid B inner cols fb →
  0 <= cols <= inner → inner <= rows →
  ∃ C, operator_mul Expr_new Expr_mul Expr_add A B = Ok C
    ∧ grid C rows cols (λ i j, dot_upto fa fb i j inner).
Proof.
  intros HA HB Hc Hin.
  pose proof HA as (HnA & HmA & _). pose proof HB as (HnB & HmB & _).
  unfold operator_mul. rewrite HnA, HnB, HmA, HmB, Z.eqb_refl. cbn [TC_ASSERT].
  rewrite bind_Ok.
  set (prod := λ i j, dot_upto fa fb i j inner).
  destruct (Matrix_new_filled rows cols prod) as (C0 & -> & HC0); [nia|].
  rewrite bind_Ok.
  apply (for_loop_inv_post (λ i C, filled (λ i' _, i' < i) C rows cols prod));
    [lia| | |].
  - eapply filled_ext; [|exact HC0]. cbn. intros; lia.
  - intros i C1 Hi HC1.
    apply (for_loop_inv_post (λ j C,
      filled (λ i' j', i' < i ∨ (i' = i ∧ j' < j)) C rows cols prod));
      [lia| | |].
    + eapply filled_ext; [|exact HC1]. cbn. intros; split; [lia|done].
    + intros j C2 Hj HC2.
      rewrite (get2_filled _ A rows inner fa i 0 HA) by (done || lia).
      rewrite bind_Ok.
      rewrite (get2_filled _ B inner cols fb 0 j HB) by (done || lia).
      rewrite bind_Ok.
      destruct (set2_filled _ C2 rows cols _ i j
                  (Expr_mul (fa i 0) (fb 0 j)) HC2) as (C3 & -> & HC3);
        [lia..|].
      rewrite bind_Ok.
      apply (for_loop_inv_post (λ k C,
        filled (λ i' j', (i' < i ∨ (i' = i ∧ j' < j)) ∨ (i' = i ∧ j' = j))
          C rows cols
          (λ i' j', if decide (i' = i ∧ j' = j)
                    then dot_upto fa fb i j k else prod i' j')));
        [lia| | |].
      * eapply filled_ext; [|exact HC3]. cbn. intros i' j' Hi' Hj' Hd.
        split; [done|]. by destruct (decide (i' = i ∧ j' = j)).
      * intros k C4 Hk HC4.
        rewrite (get2_filled _ C4 rows cols _ i j HC4) by (lia || tauto).
        rewrite bind_Ok.
        rewrite (get2_filled _ A rows inner fa i k HA) by (done || lia).
        rewrite bind_Ok.
        rewrite (get2_filled _ B inner cols fb k j HB) by (done || lia).
        rewrite bind_Ok.
        destruct (decide (i = i ∧ j = j)) as [_|]; [|tauto].
        destruct (set2_filled _ C4 rows cols _ i j
                    (Expr_add (dot_upto fa fb i j k)
                              (Expr_mul (fa i k) (fb k j))) HC4)
          as (C5 & -> & HC5); [lia..|].
        eexists. split; [reflexivity|].
        eapply filled_ext; [|exact HC5]. cbn. intros i' j' Hi' Hj' Hd.
        split; [tauto|].
        destruct (decide (i' = i ∧ j' = j)); [|done].
        symmetry. apply dot_upto_succ. lia.
      * intros C' HC'. eapply filled_ext; [|exact HC']. cbn.
        intros i' j' Hi' Hj' Hd. split; [lia|].
        by destruct (decide (i' = i ∧ j' = j)) as [[-> ->]|].
    + intros C' HC'. eapply filled_ext; [|exact HC']. cbn.
      intros; split; [lia|done].
  - intros C' HC'. eapply filled_ext; [|exact HC']. cbn.
    intros; split; [lia|done].
Qed.

End MatrixAlgebra.

(** The product of two [2 x 2] matrices of leaves: every entry is the
    left-nested inner product. *)
Example operator_mul_sq22 :
  Tlang.operator_mul (Leaf 0) Multiply Add sq22 sq22' =
  Ok (Tlang.mkMatrix 2 2
        [Add (Multiply (Leaf 0) (Leaf 4)) (Multiply (Leaf 1) (Leaf 6));
         Add (Multiply (Leaf 0) (Leaf 5)) (Multiply (Leaf 1) (Leaf 7));
         Add (Multiply (Leaf 2) (Leaf 4)) (Multiply (Leaf 3) (Leaf 6));
         Add (Multiply (Leaf 2) (Leaf 5)) (Multiply (Leaf 3) (Leaf 7))]).
Proof. reflexivity. Qed.

Example operator_add_sq22 :
  Tlang.operator_add (Leaf 0) Add sq22 sq22' =
  Ok (Tlang.mkMatrix 2 2
        [Add (Leaf 0) (Leaf 4); Add (Leaf 1) (Leaf 5);
         Add (Leaf 2) (Leaf 6); Add (Leaf 3) (Leaf 7)]).
Proof. reflexivity. Qed.

(** C2, at the failing input: a [1 x 2] row times a [2 x 1] column has
    [A.m == B.n], both operands are as constructed, and yet
    [operator*] aborts on an assertion: [A(0, 1)] compares the column
    index [1] with [A.n = 1]. *)
Theorem operator_mul_row_col_aborts :
  Tlang.m row12 = Tlang.n col21
  ∧ Tlang.wf row12 ∧ Tlang.wf col21
  ∧ Tlang.get2 row12 0 1 = AssertionFailed
  ∧ Tlang.operator_mul (Leaf 0) Multiply Add row12 col21 = AssertionFailed.
Proof. unfold Tlang.wf. cbn. repeat apply conj; (reflexivity || lia). Qed.

(** C6, at the failing input: two [1 x 2] rows have identical shapes, and
    yet [operator+] aborts on an assertion: [C(0, 1)] compares the column
    index [1] with [C.n = 1]. *)
Theorem operator_add_rows_aborts :
  Tlang.n row12 = Tlang.n row12' ∧ Tlang.m row12 = Tlang.m row12'
  ∧ Tlang.wf row12 ∧ Tlang.wf row12'
  ∧ Tlang.get2 row12 0 1 = AssertionFailed
  ∧ Tlang.operator_add (Leaf 0) Add row12 row12' = AssertionFailed.
Proof. unfold Tlang.wf. cbn. repeat apply conj; (reflexivity || lia). Qed.

(** ** The AVX kernels *)

Section KernelFacts.
Context {T : Type}.
Variable fmul fadd : T → T → T.
Variable dim : Z.
Import Kernels.
Local Open Scope Z_scope.

Lemma m256_access_ok_spec (buf : list T) off :
  m256_access_ok buf off = true
  ↔ 0 <= off ∧ off mod 8 = 0 ∧ off + 8 <= Z.of_nat (length buf).
Proof.
  unfold m256_access_ok.
  rewrite !andb_true_iff, Z.leb_le, Z.eqb_eq, Z.leb_le. tauto.
Qed.

Lemma lanes_load (buf : list T) off f :
  m256_access_ok buf off = true →
  (∀ l, 0 <= l < 8 → buf !! Z.to_nat (off + l) = Some (f l)) →
  _mm256_load_ps buf off = Ok (take 8 (drop (Z.to_nat off) buf))
  ∧ lanes (take 8 (drop (Z.to_nat off) buf)) f.
Proof.
  intros Hok Hf. unfold _mm256_load_ps. rewrite Hok. split; [done|].
  apply m256_access_ok_spec in Hok as (H0 & _ & Hlen). split.
  - rewrite length_take, length_drop. lia.
  - intros l Hl. rewrite lookup_take_lt, lookup_drop by lia.
    rewrite <- (Hf l Hl). f_equal. lia.
Qed.

Lemma lanes_mul (x y : list T) f g :
  lanes x f → lanes y g → lanes (m256_mul fmul x y) (λ l, fmul (f l) (g l)).
Proof.
  intros [Lx Hx] [Ly Hy]. split.
  - unfold m256_mul. rewrite length_zip_with. lia.
  - intros l Hl. unfold m256_mul.
    rewrite lookup_zip_with, (Hx l Hl), (Hy l Hl). done.
Qed.

Lemma lanes_add (x y : list T) f g :
  lanes x f → lanes y g → lanes (m256_add fadd x y) (λ l, fadd (f l) (g l)).
Proof.
  intros [Lx Hx] [Ly Hy]. split.
  - unfold m256_add. rewrite length_zip_with. lia.
  - intros l Hl. unfold m256_add.
    rewrite lookup_zip_with, (Hx l Hl), (Hy l Hl). done.
Qed.

Lemma lanes_ext (v : list T) (f g : Z → T) :
  (∀ l, 0 <= l < 8 → f l = g l) → lanes v f → lanes v g.
Proof.
  intros E [L H]. split; [done|]. intros l Hl. rewrite <- E by done. auto.
Qed.

Lemma store_spec (C : list T) off (c : list T) f :
  m256_access_ok C off = true → lanes c f →
  ∃ C', _mm256_store_ps C off c = Ok C'
    ∧ length C' = length C
    ∧ (∀ l, 0 <= l < 8 → C' !! Z.to_nat (off + l) = Some (f l))
    ∧ (∀ x, 0 <= x → x < off ∨ off + 8 <= x →
         C' !! Z.to_nat x = C !! Z.to_nat x).
Proof.
  intros Hok [Lc Hc]. unfold _mm256_store_ps. rewrite Hok.
  apply m256_access_ok_spec in Hok as (H0 & _ & Hlen).
  eexists. split; [done|]. split; [apply length_inserts|]. split.
  - intros l Hl. rewrite list_lookup_inserts by lia.
    rewrite <- (Hc l Hl). f_equal. lia.
  - intros x Hx [Hlt|Hge].
    + apply list_lookup_inserts_lt. lia.
    + apply list_lookup_inserts_ge. lia.
Qed.

Lemma regs_at_Ok (r : list (list T)) i (v : list T) :
  0 <= i → r !! Z.to_nat i = Some v → regs_at r i = Ok v.
Proof.
  intros Hi H. unfold regs_at. destruct (Z.ltb_spec i 0); [lia|]. by rewrite H.
Qed.

Lemma row_col_range r c :
  0 <= r < dim → 0 <= c < dim → 0 <= r * dim + c < dim * dim.
Proof. apply row_col_range_gen. Qed.

Lemma row_col_inj r c r' c' :
  0 <= c < dim → 0 <= c' < dim →
  r * dim + c = r' * dim + c' → r = r' ∧ c = c'.
Proof. apply row_col_inj_gen. Qed.

Section Blocked.
Variable base : Z → Z → Z.
Variable A B : list T.
Variable va vb : Z → Z → Z → Z → T.
Hypothesis Hdim : 0 <= dim.
Hypothesis HlenA : Z.of_nat (length A) = N * dim * dim.
Hypothesis HlenB : Z.of_nat (length B) = N * dim * dim.
Hypothesis Hbase : ∀ tb e, 0 <= tb < 32 → 0 <= e < dim * dim →
  0 <= base tb e ∧ base tb e mod 8 = 0 ∧ base tb e + 8 <= N * dim * dim.
Hypothesis Hinj : ∀ tb e tb' e',
  0 <= tb < 32 → 0 <= e < dim * dim → 0 <= tb' < 32 → 0 <= e' < dim * dim →
  base tb e = base tb' e' → tb = tb' ∧ e = e'.
Hypothesis HA : ∀ tb r c l,
  0 <= tb < 32 → 0 <= r < dim → 0 <= c < dim → 0 <= l < 8 →
  A !! Z.to_nat (base tb (r * dim + c) + l) = Some (va tb r c l).
Hypothesis HB : ∀ tb r c l,
  0 <= tb < 32 → 0 <= r < dim → 0 <= c < dim → 0 <= l < 8 →
  B !! Z.to_nat (base tb (r * dim + c) + l) = Some (vb tb r c l).

Local Abbreviation block_result := (Kernels.block_result fmul fadd dim va vb).
Local Abbreviation loaded := (Kernels.loaded dim base A B).
Local Abbreviation stored := (Kernels.stored fmul fadd dim base va vb).

Lemma access_ok_base (buf : list T) tb e :
  Z.of_nat (length buf) = N * dim * dim →
  0 <= tb < 32 → 0 <= e < dim * dim →
  m256_access_ok buf (base tb e) = true.
Proof using All.
  intros Hlen Htb He. apply m256_access_ok_spec.
  destruct (Hbase tb e Htb He) as (? & ? & ?). lia.
Qed.

(** The load loop fills every slot of [a] and [b]. *)
Lemma load_loop tb :
  0 <= tb < 32 →
  ∃ ab, for_loop 0 (dim * dim) (λ i ab,
      va ← _mm256_load_ps A (base tb i);
      a ← regs_set (fst ab) i va;
      vb ← _mm256_load_ps B (base tb i);
      b ← regs_set (snd ab) i vb;
      Ok (a, b)) (regs_new dim, regs_new dim) = Ok ab
    ∧ ∀ e, 0 <= e < dim * dim →
        fst ab !! Z.to_nat e = Some (take 8 (drop (Z.to_nat (base tb e)) A))
        ∧ snd ab !! Z.to_nat e
          = Some (take 8 (drop (Z.to_nat (base tb e)) B)).
Proof using All.
  intros Htb.
  set (P := λ (i : Z) (ab : list (list T) * list (list T)),
    Z.of_nat (length (fst ab)) = dim * dim
    ∧ Z.of_nat (length (snd ab)) = dim * dim
    ∧ ∀ e, 0 <= e < i →
        fst ab !! Z.to_nat e = Some (take 8 (drop (Z.to_nat (base tb e)) A))
        ∧ snd ab !! Z.to_nat e
          = Some (take 8 (drop (Z.to_nat (base tb e)) B))).
  assert (HD : 0 <= dim * dim) by nia.
  apply (for_loop_inv_post P); [exact HD| | |].
  - unfold P. cbn [fst snd]. unfold regs_new. rewrite length_replicate.
    split; [lia|]. split; [lia|]. intros e He. lia.
  - intros i [a b] Hi (La & Lb & Hsl). cbn in La, Lb, Hsl.
    unfold _mm256_load_ps, regs_set. cbn [fst snd].
    rewrite !(access_ok_base _ tb i) by done. cbn.
    replace ((0 <=? i) && (i <? Z.of_nat (length a))) with true
      by (symmetry; apply andb_true_iff; rewrite Z.leb_le, Z.ltb_lt; lia).
    cbn.
    replace ((0 <=? i) && (i <? Z.of_nat (length b))) with true
      by (symmetry; apply andb_true_iff; rewrite Z.leb_le, Z.ltb_lt; lia).
    cbn. eexists. split; [reflexivity|].
    unfold P. cbn. rewrite !length_insert.
    split; [done|]. split; [done|]. intros e He.
    destruct (decide (e = i)) as [->|Hne].
    + rewrite !list_lookup_insert_eq by lia. done.
    + rewrite !list_lookup_insert_ne by lia. apply Hsl. lia.
  - intros ab HP. apply HP.
Qed.

Lemma loaded_lanes_A tb r c :
  0 <= tb < 32 → 0 <= r < dim → 0 <= c < dim →
  lanes (take 8 (drop (Z.to_nat (base tb (r * dim + c))) A))
        (λ l, va tb r c l).
Proof using All.
  intros Htb Hr Hc. apply lanes_load.
  - apply access_ok_base; [done..|]. by apply row_col_range.
  - intros l Hl. by apply HA.
Qed.

Lemma loaded_lanes_B tb r c :
  0 <= tb < 32 → 0 <= r < dim → 0 <= c < dim →
  lanes (take 8 (drop (Z.to_nat (base tb (r * dim + c))) B))
        (λ l, vb tb r c l).
Proof using All.
  intros Htb Hr Hc. apply lanes_load.
  - apply access_ok_base; [done..|]. by apply row_col_range.
  - intros l Hl. by apply HB.
Qed.

Lemma loaded_regs_at tb ab r c :
  loaded tb ab → 0 <= r < dim → 0 <= c < dim →
  regs_at (fst ab) (r * dim + c)
    = Ok (take 8 (drop (Z.to_nat (base tb (r * dim + c))) A))
  ∧ regs_at (snd ab) (r * dim + c)
    = Ok (take 8 (drop (Z.to_nat (base tb (r * dim + c))) B)).
Proof using All.
  intros Hab Hr Hc.
  destruct (Hab (r * dim + c)) as [Ea Eb]; [by apply row_col_range|].
  pose proof (row_col_range r c Hr Hc).
  split; apply regs_at_Ok; (done || lia).
Qed.

(** The accumulation loop over [k] leaves the left-nested inner product
    in every lane. *)
Lemma dot_loop tb ab i j :
  0 <= tb < 32 → 0 <= i < dim → 0 <= j < dim → loaded tb ab →
  ∃ c, for_loop 1 dim (λ k c,
        x ← regs_at (fst ab) (i * dim + k);
        y ← regs_at (snd ab) (k * dim + j);
        Ok (m256_add fadd c (m256_mul fmul x y)))
      (m256_mul fmul
         (take 8 (drop (Z.to_nat (base tb (i * dim + 0))) A))
         (take 8 (drop (Z.to_nat (base tb (0 * dim + j))) B))) = Ok c
    ∧ lanes c (block_result tb i j).
Proof using All.
  intros Htb Hi Hj Hab.
  set (step := λ l (c : T) k, fadd c (fmul (va tb i k l) (vb tb k j l))).
  set (P := λ (k : Z) (c : list T),
    lanes c (λ l, fold_left (step l) (seqZ 1 (k - 1))
                    (fmul (va tb i 0 l) (vb tb 0 j l)))).
  apply (for_loop_inv_post P); [lia| | |].
  - unfold P. replace (1 - 1) with 0 by lia. cbn.
    apply lanes_mul; [apply loaded_lanes_A|apply loaded_lanes_B]; lia.
  - intros k c Hk Hc.
    destruct (loaded_regs_at tb ab i k Hab) as [-> _]; [lia..|].
    destruct (loaded_regs_at tb ab k j Hab) as [_ ->]; [lia..|].
    cbn. eexists. split; [reflexivity|]. unfold P.
    replace (k + 1 - 1) with ((k - 1) + 1) by lia.
    rewrite seqZ_app by lia.
    replace (1 + (k - 1)) with k by lia.
    rewrite (seqZ_cons k 1), (seqZ_nil _ (Z.pred 1)) by lia.
    eapply lanes_ext; [|apply lanes_add;
      [exact Hc|apply lanes_mul;
        [apply (loaded_lanes_A tb i k)|apply (loaded_lanes_B tb k j)]]];
      [|lia..].
    intros l Hl. cbn beta. by rewrite fold_left_app.
  - intros c Hc. exact Hc.
Qed.

Lemma stored_weaken (done done' : Z → Z → Z → Prop) C :
  (∀ tb i j, 0 <= tb < 32 → 0 <= i < dim → 0 <= j < dim →
     done' tb i j → done tb i j) →
  stored done C → stored done' C.
Proof. intros Himp [L H]. split; [done|]. intros. apply H; auto. Qed.

Lemma store_step (done : Z → Z → Z → Prop) C t i j c :
  0 <= t < 32 → 0 <= i < dim → 0 <= j < dim →
  stored done C → lanes c (block_result t i j) →
  ∃ C', _mm256_store_ps C (base t (i * dim + j)) c = Ok C'
    ∧ stored (λ t' i' j', done t' i' j' ∨ (t' = t ∧ i' = i ∧ j' = j)) C'.
Proof using All.
  intros Ht Hi Hj [L HC] Hc.
  pose proof (row_col_range i j Hi Hj) as He.
  destruct (store_spec C (base t (i * dim + j)) c _
              (access_ok_base C t _ L Ht He) Hc)
    as (C' & E & L' & Hnew & Hold).
  exists C'. split; [exact E|]. split; [lia|].
  intros t' i' j' l Ht' Hi' Hj' Hl Hd.
  pose proof (row_col_range i' j' Hi' Hj') as He'.
  destruct (decide (base t' (i' * dim + j') = base t (i * dim + j)))
    as [Eb|Nb].
  - apply Hinj in Eb as [-> Ee]; [|done..].
    apply row_col_inj in Ee as [-> ->]; [|done..].
    by apply Hnew.
  - destruct (Hbase t _ Ht He) as (_ & Hal & _).
    destruct (Hbase t' _ Ht' He') as (Hnn' & Hal' & _).
    rewrite Hold.
    + apply HC; [done..|]. destruct Hd as [Hd|(-> & -> & ->)]; done.
    + lia.
    + pose proof (aligned_apart _ _ Hal' Hal Nb). lia.
Qed.

Lemma loaded_regs_at_row tb ab i :
  loaded tb ab → 0 <= i < dim →
  regs_at (fst ab) (i * dim)
    = Ok (take 8 (drop (Z.to_nat (base tb (i * dim + 0))) A)).
Proof using All.
  intros Hab Hi.
  destruct (loaded_regs_at tb ab i 0 Hab) as [E _]; [lia..|].
  by replace (i * dim + 0) with (i * dim) in E at 1 by lia.
Qed.

Lemma loaded_regs_at_col tb ab j :
  loaded tb ab → 0 <= j < dim →
  regs_at (snd ab) j = Ok (take 8 (drop (Z.to_nat (base tb (0 * dim + j))) B)).
Proof using All.
  intros Hab Hj.
  destruct (loaded_regs_at tb ab 0 j Hab) as [_ E]; [lia..|].
  by replace (0 * dim + j) with j in E at 1 by lia.
Qed.

(** One run of the kernel stores the inner products of every block. *)
Lemma blocked_task_spec C :
  Z.of_nat (length C) = N * dim * dim →
  ∃ C', blocked_task fmul fadd dim base A B C = Ok C'
    ∧ stored (λ _ _ _, True) C'.
Proof using All.
  intros L. unfold blocked_task. change (N / simd_width) with 32.
  apply (for_loop_inv_post (λ t C, stored (λ t' _ _, t' < t) C)); [lia| | |].
  - split; [done|]. intros; lia.
  - intros t C0 Ht HC0.
    destruct (load_loop t Ht) as (ab & -> & Hab). rewrite bind_Ok.
    apply (for_loop_inv_post
      (λ i C, stored (λ t' i' _, t' < t ∨ (t' = t ∧ i' < i)) C));
      [exact Hdim| | |].
    + eapply stored_weaken; [|exact HC0]. cbn. intros; lia.
    + intros i C1 Hi HC1.
      apply (for_loop_inv_post
        (λ j C, stored (λ t' i' j',
           t' < t ∨ (t' = t ∧ (i' < i ∨ (i' = i ∧ j' < j)))) C));
        [exact Hdim| | |].
      * eapply stored_weaken; [|exact HC1]. cbn. intros; lia.
      * intros j C2 Hj HC2.
        rewrite (loaded_regs_at_row t ab i Hab Hi), bind_Ok.
        rewrite (loaded_regs_at_col t ab j Hab Hj), bind_Ok.
        destruct (dot_loop t ab i j Ht Hi Hj Hab) as (c & -> & Hc).
        rewrite bind_Ok.
        destruct (store_step _ C2 t i j c Ht Hi Hj HC2 Hc) as (C' & -> & HC').
        eexists. split; [reflexivity|].
        eapply stored_weaken; [|exact HC']. cbn. intros; lia.
      * intros C' HC'. eapply stored_weaken; [|exact HC']. cbn. intros; lia.
    + intros C' HC'. eapply stored_weaken; [|exact HC']. cbn. intros; lia.
  - intros C' HC'. eapply stored_weaken; [|exact HC']. cbn. intros; lia.
Qed.

(** Running the kernel again on its own output changes nothing that the
    specification sees: after any positive number of runs the inner
    products are in place. *)
Lemma run_times_spec times C :
  Z.of_nat (length C) = N * dim * dim →
  ∃ C', run_times (blocked_task fmul fadd dim base A B) (S times) C = Ok C'
    ∧ stored (λ _ _ _, True) C'.
Proof using All.
  revert C. induction times as [|k IH]; intros C L.
  - destruct (blocked_task_spec C L) as (C' & E & HC').
    exists C'. cbn [run_times]. by rewrite E.
  - destruct (blocked_task_spec C L) as (C1 & E & [L1 _]).
    destruct (IH C1 L1) as (C' & E' & HC').
    exists C'. split; [|done].
    change (run_times ?f (S (S k)) C) with (C1 ← f C; run_times f (S k) C1).
    by rewrite E, bind_Ok.
Qed.

End Blocked.

(** A layout [off] that places lane [t mod 8] of block [t / 8] at
    [base (t / 8) e + t mod 8]: a kernel working on [base] maps batches
    held in that layout to their product held in the same layout. *)
Lemma layout_kernel_spec (base : Z → Z → Z) (off : Z → Z → Z → Z)
    (A B C : list T) (MA MB : Z → Z → Z → T) times :
  0 <= dim →
  (∀ tb e, 0 <= tb < 32 → 0 <= e < dim * dim →
     0 <= base tb e ∧ base tb e mod 8 = 0
     ∧ base tb e + 8 <= N * dim * dim) →
  (∀ tb e tb' e',
     0 <= tb < 32 → 0 <= e < dim * dim →
     0 <= tb' < 32 → 0 <= e' < dim * dim →
     base tb e = base tb' e' → tb = tb' ∧ e = e') →
  (∀ t r c, 0 <= t < N → 0 <= r < dim → 0 <= c < dim →
     off t r c = base (t / 8) (r * dim + c) + t mod 8) →
  holds dim off A MA → holds dim off B MB →
  Z.of_nat (length C) = N * dim * dim →
  ∃ C', run_times (blocked_task fmul fadd dim base A B) (S times) C = Ok C'
    ∧ holds dim off C' (batch_product fmul fadd dim MA MB).
Proof.
  intros Hdim Hbase Hinj Hoff [LA HA] [LB HB] LC.
  assert (Hlane : ∀ tb l, 0 <= tb < 32 → 0 <= l < 8 →
            0 <= tb * 8 + l < N
            ∧ (tb * 8 + l) / 8 = tb ∧ (tb * 8 + l) mod 8 = l).
  { intros tb l Htb Hl. unfold N. split; [lia|].
    split; [symmetry; apply Z.div_unique_pos with l; lia
           |symmetry; apply Z.mod_unique_pos with tb; lia]. }
  destruct (run_times_spec base A B
              (λ tb r c l, MA (tb * 8 + l) r c)
              (λ tb r c l, MB (tb * 8 + l) r c)
              Hdim LA LB Hbase Hinj) with (times := times) (C := C)
    as (C' & E & [LC' HC']); [| |exact LC|].
  - intros tb r c l Htb Hr Hc Hl.
    destruct (Hlane tb l Htb Hl) as (Ht & Ediv & Emod).
    destruct (HA (tb * 8 + l) r c Ht Hr Hc) as [_ <-].
    by rewrite Hoff, Ediv, Emod.
  - intros tb r c l Htb Hr Hc Hl.
    destruct (Hlane tb l Htb Hl) as (Ht & Ediv & Emod).
    destruct (HB (tb * 8 + l) r c Ht Hr Hc) as [_ <-].
    by rewrite Hoff, Ediv, Emod.
  - exists C'. split; [exact E|]. split; [exact LC'|].
    intros t r c Ht Hr Hc.
    assert (Htb : 0 <= t / 8 < 32)
      by (unfold N in Ht; Z.div_mod_to_equations; lia).
    assert (Hl : 0 <= t mod 8 < 8) by (Z.div_mod_to_equations; lia).
    destruct (Hbase (t / 8) (r * dim + c) Htb (row_col_range r c Hr Hc))
      as (Hnn & _ & _).
    rewrite Hoff by done. split; [lia|].
    rewrite (HC' (t / 8) r c (t mod 8)) by done.
    unfold Kernels.block_result, batch_product.
    replace (t / 8 * 8 + t mod 8) with t
      by (Z.div_mod_to_equations; lia).
    done.
Qed.

Lemma AOSOA_task_blocked A B :
  AOSOA_task fmul fadd dim A B = blocked_task fmul fadd dim (AOSOA_base dim) A B.
Proof. reflexivity. Qed.

Lemma SOA_task_blocked A B :
  SOA_task fmul fadd dim A B = blocked_task fmul fadd dim SOA_base A B.
Proof. reflexivity. Qed.

Lemma AOSOA_base_ok tb e :
  0 <= tb < 32 → 0 <= e < dim * dim →
  0 <= AOSOA_base dim tb e ∧ AOSOA_base dim tb e mod 8 = 0
  ∧ AOSOA_base dim tb e + 8 <= N * dim * dim.
Proof.
  intros Htb He. unfold AOSOA_base, simd_width, N.
  set (D := dim * dim) in *.
  replace (D * 8 * tb + 8 * e) with ((D * tb + e) * 8) by ring.
  assert (0 <= D * tb) by (apply Z.mul_nonneg_nonneg; lia).
  assert (D * tb <= D * 31) by (apply Z.mul_le_mono_nonneg_l; lia).
  rewrite Z.mod_mul by lia. lia.
Qed.

Lemma AOSOA_base_inj tb e tb' e' :
  0 <= tb < 32 → 0 <= e < dim * dim →
  0 <= tb' < 32 → 0 <= e' < dim * dim →
  AOSOA_base dim tb e = AOSOA_base dim tb' e' → tb = tb' ∧ e = e'.
Proof.
  intros Htb He Htb' He'. unfold AOSOA_base, simd_width.
  set (D := dim * dim) in *. intros E.
  assert (E' : tb * D + e = tb' * D + e') by lia.
  by apply (row_col_inj_gen D) in E'.
Qed.

Lemma SOA_base_ok tb e :
  0 <= tb < 32 → 0 <= e < dim * dim →
  0 <= SOA_base tb e ∧ SOA_base tb e mod 8 = 0
  ∧ SOA_base tb e + 8 <= N * dim * dim.
Proof.
  intros Htb He. unfold SOA_base, simd_width, N.
  replace (e * 256 + tb * 8) with ((e * 32 + tb) * 8) by ring.
  rewrite Z.mod_mul by lia. lia.
Qed.

Lemma SOA_base_inj tb e tb' e' :
  0 <= tb < 32 → 0 <= e < dim * dim →
  0 <= tb' < 32 → 0 <= e' < dim * dim →
  SOA_base tb e = SOA_base tb' e' → tb = tb' ∧ e = e'.
Proof. unfold SOA_base, simd_width, N. lia. Qed.

Lemma AOSOA_offset_base t r c :
  AOSOA_offset dim t r c = AOSOA_base dim (t / 8) (r * dim + c) + t mod 8.
Proof. unfold AOSOA_offset, AOSOA_base, simd_width. ring. Qed.

Lemma SOA_offset_base t r c :
  SOA_offset dim t r c = SOA_base (t / 8) (r * dim + c) + t mod 8.
Proof. unfold SOA_offset, SOA_base, simd_width. ring. Qed.

(** [ind2] of [Tlang_matmatmul] is the AOSOA offset. *)
Lemma ind2_AOSOA_offset t r c : ind2 dim t r c = AOSOA_offset dim t r c.
Proof. unfold ind2, AOSOA_offset, simd_width. ring. Qed.

Lemma AOSOA_kernel_spec A B C MA MB times :
  0 <= dim →
  holds dim (AOSOA_offset dim) A MA → holds dim (AOSOA_offset dim) B MB →
  Z.of_nat (length C) = N * dim * dim →
  ∃ C', run_times (AOSOA_task fmul fadd dim A B) (S times) C = Ok C'
    ∧ holds dim (AOSOA_offset dim) C' (batch_product fmul fadd dim MA MB).
Proof.
  intros Hdim HA HB LC. rewrite AOSOA_task_blocked.
  apply layout_kernel_spec;
    [done|apply AOSOA_base_ok|apply AOSOA_base_inj
    |intros; apply AOSOA_offset_base|done..].
Qed.

Lemma SOA_kernel_spec A B C MA MB times :
  0 <= dim →
  holds dim (SOA_offset dim) A MA → holds dim (SOA_offset dim) B MB →
  Z.of_nat (length C) = N * dim * dim →
  ∃ C', run_times (SOA_task fmul fadd dim A B) (S times) C = Ok C'
    ∧ holds dim (SOA_offset dim) C' (batch_product fmul fadd dim MA MB).
Proof.
  intros Hdim HA HB LC. rewrite SOA_task_blocked.
  apply layout_kernel_spec;
    [done|apply SOA_base_ok|apply SOA_base_inj
    |intros; apply SOA_offset_base|done..].
Qed.


(** Any buffer of the right size filled with one value holds the constant
    batch, whatever the layout, as long as the layout stays inside it. *)
Lemma holds_replicate (off : Z → Z → Z → Z) (x : T) :
  0 <= dim →
  (∀ t r c, 0 <= t < N → 0 <= r < dim → 0 <= c < dim →
     0 <= off t r c < N * dim * dim) →
  holds dim off (replicate (Z.to_nat (N * dim * dim)) x) (λ _ _ _, x).
Proof.
  intros Hdim Hoff.
  assert (0 <= N * dim * dim) by (unfold N; nia).
  split; [rewrite length_replicate; lia|].
  intros t r c Ht Hr Hc. destruct (Hoff t r c Ht Hr Hc).
  split; [lia|]. apply lookup_replicate_2. lia.
Qed.

Lemma AOSOA_offset_range t r c :
  0 <= t < N → 0 <= r < dim → 0 <= c < dim →
  0 <= AOSOA_offset dim t r c < N * dim * dim.
Proof.
  intros Ht Hr Hc. rewrite AOSOA_offset_base.
  assert (Htb : 0 <= t / 8 < 32)
    by (unfold N in Ht; Z.div_mod_to_equations; lia).
  assert (Hl : 0 <= t mod 8 < 8) by (Z.div_mod_to_equations; lia).
  destruct (AOSOA_base_ok (t / 8) (r * dim + c) Htb (row_col_range r c Hr Hc))
    as (? & ? & ?).
  lia.
Qed.

Lemma SOA_offset_range t r c :
  0 <= t < N → 0 <= r < dim → 0 <= c < dim →
  0 <= SOA_offset dim t r c < N * dim * dim.
Proof.
  intros Ht Hr Hc. rewrite SOA_offset_base.
  assert (Htb : 0 <= t / 8 < 32)
    by (unfold N in Ht; Z.div_mod_to_equations; lia).
  assert (Hl : 0 <= t mod 8 < 8) by (Z.div_mod_to_equations; lia).
  destruct (SOA_base_ok (t / 8) (r * dim + c) Htb (row_col_range r c Hr Hc))
    as (? & ? & ?).
  lia.
Qed.

(** Whatever a buffer of the right size contains is a batch held in the
    layout: the hypothesis [holds] of the theorems below restricts
    nothing but the size. *)
Lemma holds_read (off : Z → Z → Z → Z) (d : T) (buf : list T) :
  Z.of_nat (length buf) = N * dim * dim →
  (∀ t r c, 0 <= t < N → 0 <= r < dim → 0 <= c < dim →
     0 <= off t r c < N * dim * dim) →
  holds dim off buf (λ t r c, default d (buf !! Z.to_nat (off t r c))).
Proof.
  intros L Hoff. split; [done|]. intros t r c Ht Hr Hc.
  destruct (Hoff t r c Ht Hr Hc). split; [lia|].
  destruct (lookup_lt_is_Some_2 buf (Z.to_nat (off t r c))) as [x ->]; [lia|].
  done.
Qed.

(** At the sizes the program uses no offset leaves the range of [int]. *)
Lemma offsets_fit_int t r c :
  dim = 1 ∨ dim = 2 ∨ dim = 4 →
  0 <= t < N → 0 <= r < dim → 0 <= c < dim →
  0 <= AOSOA_offset dim t r c < 2 ^ 31 ∧ 0 <= SOA_offset dim t r c < 2 ^ 31.
Proof.
  intros Hdim Ht Hr Hc.
  pose proof (AOSOA_offset_range t r c Ht Hr Hc).
  pose proof (SOA_offset_range t r c Ht Hr Hc).
  assert (N * dim * dim <= 4096) by (unfold N; destruct Hdim as [->|[->| ->]]; lia).
  lia.
Qed.

(** C1: for [dim] in 1, 2, 4 and every instance [t] in [[0, 256)], the
    AOSOA kernel reads the datum of element [(row, col)] of instance [t]
    of its inputs, and writes it to its output, at offset
    [(t / 8) * (dim * dim * 8) + (row * dim + col) * 8 + t mod 8], and the
    SOA kernel at [(row * dim + col) * 256 + (t / 8) * 8 + t mod 8]:
    when the input buffers hold two batches at these offsets, the kernel
    runs to completion (every access in range and aligned) and the output
    buffer holds the batch of products at these offsets. *)
Theorem kernels_address_elements (A B C : list T) (MA MB : Z → Z → Z → T)
    times :
  dim = 1 ∨ dim = 2 ∨ dim = 4 →
  Z.of_nat (length C) = 256 * dim * dim →
  (holds dim (λ t row col,
       (t / 8) * (dim * dim * 8) + (row * dim + col) * 8 + t mod 8) A MA →
   holds dim (λ t row col,
       (t / 8) * (dim * dim * 8) + (row * dim + col) * 8 + t mod 8) B MB →
   ∃ C', run_times (AOSOA_task fmul fadd dim A B) (S times) C = Ok C'
     ∧ holds dim (λ t row col,
         (t / 8) * (dim * dim * 8) + (row * dim + col) * 8 + t mod 8) C'
         (batch_product fmul fadd dim MA MB))
  ∧ (holds dim (λ t row col,
       (row * dim + col) * 256 + (t / 8) * 8 + t mod 8) A MA →
     holds dim (λ t row col,
       (row * dim + col) * 256 + (t / 8) * 8 + t mod 8) B MB →
     ∃ C', run_times (SOA_task fmul fadd dim A B) (S times) C = Ok C'
       ∧ holds dim (λ t row col,
           (row * dim + col) * 256 + (t / 8) * 8 + t mod 8) C'
           (batch_product fmul fadd dim MA MB)).
Proof.
  intros Hdim LC. split; intros HA HB.
  - apply (AOSOA_kernel_spec A B C MA MB times); [lia|exact HA|exact HB|exact LC].
  - apply (SOA_kernel_spec A B C MA MB times); [lia|exact HA|exact HB|exact LC].
Qed.

(** C4: for [dim] in 1, 2, 4 and a batch presented once in AOSOA order
    and once in SOA order, both kernels run to completion and, read back
    through their address formulas, give the same value for every
    instance [t] and element [(i, j)]: the sum over [k] of
    [A(i, k) * B(k, j)] accumulated from the left, starting with the
    [k = 0] product. *)
Theorem AOSOA_SOA_same_product (A1 B1 C1 A2 B2 C2 : list T)
    (MA MB : Z → Z → Z → T) times1 times2 :
  dim = 1 ∨ dim = 2 ∨ dim = 4 →
  holds dim (AOSOA_offset dim) A1 MA → holds dim (AOSOA_offset dim) B1 MB →
  holds dim (SOA_offset dim) A2 MA → holds dim (SOA_offset dim) B2 MB →
  Z.of_nat (length C1) = N * dim * dim →
  Z.of_nat (length C2) = N * dim * dim →
  ∃ C1' C2',
    run_times (AOSOA_task fmul fadd dim A1 B1) (S times1) C1 = Ok C1'
    ∧ run_times (SOA_task fmul fadd dim A2 B2) (S times2) C2 = Ok C2'
    ∧ ∀ t i j, 0 <= t < N → 0 <= i < dim → 0 <= j < dim →
        C1' !! Z.to_nat (AOSOA_offset dim t i j)
          = C2' !! Z.to_nat (SOA_offset dim t i j)
        ∧ C2' !! Z.to_nat (SOA_offset dim t i j)
          = Some (fold_left (λ c k, fadd c (fmul (MA t i k) (MB t k j)))
                            (seqZ 1 (dim - 1))
                            (fmul (MA t i 0) (MB t 0 j))).
Proof.
  intros Hdim HA1 HB1 HA2 HB2 L1 L2.
  destruct (AOSOA_kernel_spec A1 B1 C1 MA MB times1) as (C1' & E1 & [_ H1]);
    [lia|done..|].
  destruct (SOA_kernel_spec A2 B2 C2 MA MB times2) as (C2' & E2 & [_ H2]);
    [lia|done..|].
  exists C1', C2'. split; [exact E1|]. split; [exact E2|].
  intros t i j Ht Hi Hj.
  destruct (H1 t i j Ht Hi Hj) as [_ ->].
  destruct (H2 t i j Ht Hi Hj) as [_ ->].
  done.
Qed.

End KernelFacts.

(** One run of each kernel on integers, [dim = 2], instance [t = 9],
    element [(1, 0)]: [A(1,0) * B(0,0) + A(1,1) * B(1,0)]. *)
Example AOSOA_task_runs :
  match Kernels.AOSOA_task Z.mul Z.add 2 ramp_A ramp_B (replicate 1024 0%Z) with
  | Ok C => (ramp_A !! 49%nat, ramp_A !! 57%nat, ramp_B !! 33%nat,
             ramp_B !! 49%nat, C !! 49%nat)
  | _ => (None, None, None, None, None)
  end = (Some 50, Some 58, Some 67, Some 99, Some (50 * 67 + 58 * 99))%Z.
Proof. vm_compute. reflexivity. Qed.

Example SOA_task_runs :
  match Kernels.SOA_task Z.mul Z.add 2 ramp_A ramp_B (replicate 1024 0%Z) with
  | Ok C => (ramp_A !! 521%nat, ramp_A !! 777%nat, ramp_B !! 9%nat,
             ramp_B !! 521%nat, C !! 521%nat)
  | _ => (None, None, None, None, None)
  end = (Some 522, Some 778, Some 19, Some 1043, Some (522 * 19 + 778 * 1043))%Z.
Proof. vm_compute. reflexivity. Qed.

Lemma kernels_address_elements_witness :
  (1 = 1 ∨ 1 = 2 ∨ 1 = 4)%Z
  ∧ ∃ C', Kernels.run_times
            (Kernels.AOSOA_task Float32.mul Float32.add 1 (twos 1) (threes 1))
            1 (zeros 1) = Ok C'
      ∧ Kernels.holds 1 (λ t row col,
            (t / 8) * (1 * 1 * 8) + (row * 1 + col) * 8 + t mod 8)%Z C'
          (Kernels.batch_product Float32.mul Float32.add 1
             (λ _ _ _, Float32.of_int 2) (λ _ _ _, Float32.of_int 3)).
Proof.
  split; [by left|].
  apply (proj1 (kernels_address_elements Float32.mul Float32.add 1
                  (twos 1) (threes 1) (zeros 1)
                  (λ _ _ _, Float32.of_int 2) (λ _ _ _, Float32.of_int 3) 0%nat
                  (or_introl eq_refl) eq_refl)).
  - apply holds_replicate; [lia|]. apply AOSOA_offset_range.
  - apply holds_replicate; [lia|]. apply AOSOA_offset_range.
Defined.

Lemma AOSOA_SOA_same_product_witness :
  ∃ C1' C2',
    Kernels.run_times
      (Kernels.AOSOA_task Float32.mul Float32.add 2 (twos 2) (threes 2))
      1 (zeros 2) = Ok C1'
    ∧ Kernels.run_times
        (Kernels.SOA_task Float32.mul Float32.add 2 (twos 2) (threes 2))
        1 (zeros 2) = Ok C2'
    ∧ ∀ t i j, (0 <= t < N)%Z → (0 <= i < 2)%Z → (0 <= j < 2)%Z →
        C1' !! Z.to_nat (Kernels.AOSOA_offset 2 t i j)
          = C2' !! Z.to_nat (Kernels.SOA_offset 2 t i j)
        ∧ C2' !! Z.to_nat (Kernels.SOA_offset 2 t i j)
          = Some (fold_left
                    (λ c k, Float32.add c
                       (Float32.mul (Float32.of_int 2) (Float32.of_int 3)))
                    (seqZ 1 (2 - 1))
                    (Float32.mul (Float32.of_int 2) (Float32.of_int 3))).
Proof.
  apply (AOSOA_SOA_same_product Float32.mul Float32.add 2
           (twos 2) (threes 2) (zeros 2) (twos 2) (threes 2) (zeros 2)
           (λ _ _ _, Float32.of_int 2) (λ _ _ _, Float32.of_int 3) 0%nat 0%nat
           (or_intror (or_introl eq_refl))).
  - apply holds_replicate; [lia|]. apply AOSOA_offset_range.
  - apply holds_replicate; [lia|]. apply AOSOA_offset_range.
  - apply holds_replicate; [lia|]. apply SOA_offset_range.
  - apply holds_replicate; [lia|]. apply SOA_offset_range.
  - reflexivity.
  - reflexivity.
Defined.

(** ** Leaf addresses *)

Section LayoutFacts.
Import Layout.
Local Open Scope Z_scope.

Lemma eval_aosoa_leaf dim e i n :
  eval (aosoa_leaf dim e) i n = Kernels.AOSOA_base dim (i / 8) e + i mod 8.
Proof. unfold eval, aosoa_leaf, Kernels.AOSOA_base, Kernels.simd_width. cbn. ring. Qed.

(** For layout 0 the permutation loops of [Tlang_matmatmul] see the same
    index twice: [ind1 = c(j, k)->addr.eval(i, N)] is [ind2]. *)
Lemma eval_aosoa_leaf_ind2 dim i j k :
  eval (aosoa_leaf dim (j * dim + k)) i N = Kernels.ind2 dim i j k.
Proof. unfold eval, aosoa_leaf, Kernels.ind2. cbn. ring. Qed.

Lemma block_lane_split i :
  0 <= i < N → 0 <= i / 8 < 32 ∧ 0 <= i mod 8 < 8 ∧ i = i / 8 * 8 + i mod 8.
Proof. unfold N. intros. Z.div_mod_to_equations. lia. Qed.

Lemma eval_injective dim (a : Addr) i i' :
  0 < dim →
  repeat a = 8 → block_stride a = 8 * dim * dim → lane_stride a = 1 →
  0 <= i < N → 0 <= i' < N →
  eval a i N = eval a i' N → i = i'.
Proof.
  intros Hdim Hr Hb Hl Hi Hi'. unfold eval. rewrite Hr, Hb, Hl.
  destruct (block_lane_split i Hi) as (Hq & Hm & Ei).
  destruct (block_lane_split i' Hi') as (Hq' & Hm' & Ei').
  intros E.
  assert (HD : 8 <= 8 * dim * dim) by nia.
  destruct (row_col_inj_gen (8 * dim * dim) (i / 8) (i mod 8)
              (i' / 8) (i' mod 8)) as [Eq Em]; [lia..|].
  lia.
Qed.

Lemma eval_aosoa_range dim e i :
  0 <= e < dim * dim → 0 <= i < N →
  0 <= eval (aosoa_leaf dim e) i N < N * dim * dim.
Proof.
  intros He Hi. rewrite eval_aosoa_leaf.
  destruct (block_lane_split i Hi) as (Hq & Hm & _).
  destruct (AOSOA_base_ok dim (i / 8) e Hq He) as (? & ? & ?). lia.
Qed.

Lemma eval_aosoa_onto dim off :
  0 < dim → 0 <= off < N * dim * dim →
  ∃ e i, 0 <= e < dim * dim ∧ 0 <= i < N
    ∧ eval (aosoa_leaf dim e) i N = off.
Proof.
  intros Hdim Hoff. set (D := dim * dim) in *.
  assert (HD : 0 < D) by (unfold D; nia).
  set (q := off / 8). set (l := off mod 8).
  assert (Hq : off = q * 8 + l ∧ 0 <= l < 8)
    by (unfold q, l; Z.div_mod_to_equations; lia).
  assert (Hq' : 0 <= q < 32 * D) by (unfold N in Hoff; lia).
  pose proof (Z.div_mod q D ltac:(lia)) as Eq.
  pose proof (Z.mod_pos_bound q D HD) as Hm.
  assert (Hb : 0 <= q / D < 32).
  { split; [apply Z.div_pos; lia|apply Z.div_lt_upper_bound; lia]. }
  exists (q mod D), (q / D * 8 + l).
  split; [done|]. split; [unfold N; lia|].
  rewrite eval_aosoa_leaf. unfold Kernels.AOSOA_base, Kernels.simd_width.
  fold D.
  replace ((q / D * 8 + l) / 8) with (q / D)
    by (apply Z.div_unique_pos with l; lia).
  replace ((q / D * 8 + l) mod 8) with l
    by (apply Z.mod_unique_pos with (q / D); lia).
  lia.
Qed.

(** C3: with [n = 256], an address with repeat count 8, block stride
    [8 * dim * dim] and unit lane stride is injective on [[0, n)], and the
    offsets of the [dim * dim] leaves of one buffer of the AOSOA layout
    together are exactly [[0, n * dim * dim)]. *)
Theorem addr_eval_bijection dim :
  0 < dim →
  (∀ a i i', repeat a = 8 → block_stride a = 8 * dim * dim →
     lane_stride a = 1 → 0 <= i < 256 → 0 <= i' < 256 →
     eval a i 256 = eval a i' 256 → i = i')
  ∧ (∀ off, 0 <= off < 256 * dim * dim ↔
       ∃ e i, 0 <= e < dim * dim ∧ 0 <= i < 256
         ∧ eval (aosoa_leaf dim e) i 256 = off).
Proof.
  intros Hdim. split.
  - intros a i i' Hr Hb Hl Hi Hi'. by apply (eval_injective dim).
  - intros off. split.
    + by apply eval_aosoa_onto.
    + intros (e & i & He & Hi & <-). by apply eval_aosoa_range.
Qed.

End LayoutFacts.

Lemma addr_eval_bijection_witness :
  (0 < 2)%Z
  ∧ (∀ a i i', Layout.repeat a = 8%Z → Layout.block_stride a = (8 * 2 * 2)%Z →
       Layout.lane_stride a = 1%Z → (0 <= i < 256)%Z → (0 <= i' < 256)%Z →
       Layout.eval a i 256 = Layout.eval a i' 256 → i = i')
  ∧ (∀ off, (0 <= off < 256 * 2 * 2)%Z ↔
       ∃ e i, (0 <= e < 2 * 2)%Z ∧ (0 <= i < 256)%Z
         ∧ Layout.eval (Layout.aosoa_leaf 2 e) i 256 = off).
Proof. split; [lia|]. apply (addr_eval_bijection 2). lia. Defined.

(** ** Validation tolerances *)

Section ValidationFacts.
Import Validation.

Lemma SFcompare_antisym x y :
  SFcompare y x = option_map CompOpp (SFcompare x y).
Proof.
  destruct x as [sx|sx| |sx mx ex], y as [sy|sy| |sy my ey]; cbn;
    try reflexivity;
    try (destruct sx; reflexivity); try (destruct sy; reflexivity);
    try (destruct sx, sy; reflexivity).
  change (Pos.compare_cont Eq my mx) with (Pos.compare my mx).
  change (Pos.compare_cont Eq mx my) with (Pos.compare mx my).
  rewrite (Z.compare_antisym ex ey), (Pos.compare_antisym mx my).
  destruct sx, sy; cbn; try reflexivity;
    destruct (ex ?= ey)%Z; cbn; try reflexivity;
    destruct (mx ?= my)%positive; reflexivity.
Qed.

Lemma SFcompare_None x y :
  SFcompare x y = None ↔ is_nan x = true ∨ is_nan y = true.
Proof.
  destruct x as [sx|sx| |sx mx ex], y as [sy|sy| |sy my ey]; cbn;
    split; intros H; try discriminate; try tauto;
    try (destruct H; discriminate); auto.
Qed.

(** [¬ (x < y)] is [y <= x] or unordered. *)
Lemma SFltb_false x y :
  SFltb x y = false ↔ (is_nan x = true ∨ is_nan y = true) ∨ SFleb y x = true.
Proof.
  rewrite <- SFcompare_None. unfold SFltb, SFleb.
  rewrite (SFcompare_antisym x y).
  destruct (SFcompare x y) as [[]|]; cbn; split; intros H;
    try discriminate; try tauto; auto;
    destruct H as [H|H]; discriminate.
Qed.

Lemma is_nan_SFabs x : is_nan (SFabs x) = is_nan x.
Proof. by destruct x. Qed.

(** The two tolerances are the correctly rounded [float32] quotients. *)
Lemma tol_literals :
  tol_1e5 = Float32.div (Float32.of_int 1) (Float32.of_int 100000)
  ∧ tol_1e4 = Float32.div (Float32.of_int 1) (Float32.of_int 10000).
Proof. split; vm_compute; reflexivity. Qed.

(** C5, as the code has it: the matrix-matrix validation aborts exactly
    when the absolute difference is at least [1e-5] or is not a number;
    the matrix-vector validation uses the tolerance [1e-4] and aborts
    exactly when the absolute difference exceeds [1e-4]. *)
Theorem validation_tolerances (a b : spec_float) :
  (matmatmul_check a b = AssertionFailed
     ↔ is_nan (Float32.sub a b) = true
       ∨ SFleb tol_1e5 (SFabs (Float32.sub a b)) = true)
  ∧ (matmatmul_check a b ≠ AssertionFailed → matmatmul_check a b = Ok tt)
  ∧ (matvecmul_check a b = AssertionFailed
     ↔ SFltb tol_1e4 (SFabs (Float32.sub a b)) = true)
  ∧ (matvecmul_check a b ≠ AssertionFailed → matvecmul_check a b = Ok tt).
Proof.
  split; [|split; [|split]].
  - unfold matmatmul_check, TC_ASSERT.
    pose proof (SFltb_false (SFabs (Float32.sub a b)) tol_1e5) as H.
    rewrite is_nan_SFabs in H. cbn [is_nan tol_1e5] in H.
    destruct (SFltb (SFabs (Float32.sub a b)) tol_1e5).
    + split; [discriminate|]. intros Hc.
      assert (true = false); [|discriminate].
      apply H. destruct Hc; auto.
    + split; [|done]. intros _.
      destruct (proj1 H eq_refl) as [[?|?]|?]; auto. discriminate.
  - unfold matmatmul_check, TC_ASSERT.
    by destruct (SFltb (SFabs (Float32.sub a b)) tol_1e5).
  - unfold matvecmul_check.
    destruct (SFltb tol_1e4 (SFabs (Float32.sub a b))); split; done.
  - unfold matvecmul_check.
    by destruct (SFltb tol_1e4 (SFabs (Float32.sub a b))).
Qed.

(** C5 fails as stated: a matrix-vector result that is off by [2^-14]
    (more than [1e-5]) passes validation. *)
Lemma matvecmul_check_accepts_6e5 :
  SFleb tol_1e5 (SFabs (Float32.sub (Float32.of_int 0) two_pow_m14)) = true
  ∧ matvecmul_check (Float32.of_int 0) two_pow_m14 = Ok tt.
Proof. split; vm_compute; reflexivity. Qed.

End ValidationFacts.

Lemma validation_tolerances_witness :
  Validation.matmatmul_check (Float32.of_int 0) Validation.two_pow_m14
    = AssertionFailed.
Proof.
  apply (proj1 (validation_tolerances (Float32.of_int 0) Validation.two_pow_m14)).
  right. vm_compute. reflexivity.
Defined.

(** ** The scalar example *)

Example vec_add_runs :
  vec_add_kernel vec_add_x vec_add_y (replicate 16 S754_nan)
  = Ok ((λ i, Float32.of_int (- i)) <$> seqZ 0 16).
Proof. vm_compute. reflexivity. Qed.

Lemma list_of_16 {X : Type} (l : list X) :
  length l = 16%nat →
  ∃ x0 x1 x2 x3 x4 x5 x6 x7 x8 x9 x10 x11 x12 x13 x14 x15,
    l = [x0; x1; x2; x3; x4; x5; x6; x7; x8; x9; x10; x11; x12; x13; x14; x15].
Proof.
  intros H.
  do 16 (destruct l as [|? l]; [discriminate|]).
  destruct l; [|discriminate]. by repeat eexists.
Qed.

Lemma filled_eq (f : Z → spec_float) (l : list spec_float) :
  length l = 16%nat →
  (∀ i, (0 <= i < 16)%Z → l !! Z.to_nat i = Some (f i)) →
  l = f <$> seqZ 0 16.
Proof.
  intros L H. apply list_eq. intros k.
  destruct (decide (k < 16)%nat) as [Hk|Hk].
  - rewrite list_lookup_fmap, lookup_seqZ_lt by lia. cbn.
    rewrite Z.add_0_l, <- (H (Z.of_nat k)) by lia. by rewrite Nat2Z.id.
  - rewrite !(proj2 (lookup_ge_None _ _)); [done| |lia].
    rewrite length_fmap, length_seqZ. lia.
Qed.

(** C7: the width-1 add kernel over 16 instances, on inputs [x[i] = i]
    and [y[i] = -2 * i], leaves [z[i] = x[i] + y[i] = -i] for every [i]
    in [0 .. 15], whatever [z] held before; the assertions of
    [test_vec_add] then pass. *)
Theorem vec_add_example (x y z0 : list spec_float) :
  length x = 16%nat → length y = 16%nat → length z0 = 16%nat →
  (∀ i, (0 <= i < 16)%Z → x !! Z.to_nat i = Some (Float32.of_int i)) →
  (∀ i, (0 <= i < 16)%Z → y !! Z.to_nat i = Some (Float32.of_int (-2 * i))) →
  ∃ z, vec_add_kernel x y z0 = Ok z
    ∧ length z = 16%nat
    ∧ (∀ i, (0 <= i < 16)%Z →
         z !! Z.to_nat i
           = Some (Float32.add (Float32.of_int i) (Float32.of_int (-2 * i)))
         ∧ z !! Z.to_nat i = Some (Float32.of_int (- i)))
    ∧ test_vec_add z0 = Ok tt.
Proof.
  intros Lx Ly Lz Hx Hy.
  rewrite (filled_eq (λ i, Float32.of_int i) x Lx Hx).
  rewrite (filled_eq (λ i, Float32.of_int (-2 * i)) y Ly Hy).
  destruct (list_of_16 z0 Lz)
    as (z0' & z1 & z2 & z3 & z4 & z5 & z6 & z7 & z8 & z9 & z10 & z11
        & z12 & z13 & z14 & z15 & ->).
  exists ((λ i, Float32.of_int (- i)) <$> seqZ 0 16).
  split; [vm_compute; reflexivity|]. split; [reflexivity|]. split.
  - intros i Hi.
    assert (Hc : (i = 0 ∨ i = 1 ∨ i = 2 ∨ i = 3 ∨ i = 4 ∨ i = 5 ∨ i = 6
                  ∨ i = 7 ∨ i = 8 ∨ i = 9 ∨ i = 10 ∨ i = 11 ∨ i = 12
                  ∨ i = 13 ∨ i = 14 ∨ i = 15)%Z) by lia.
    repeat (destruct Hc as [->|Hc]; [split; vm_compute; reflexivity|]).
    subst i. split; vm_compute; reflexivity.
  - vm_compute. reflexivity.
Qed.

Lemma vec_add_example_witness :
  ∃ z, vec_add_kernel vec_add_x vec_add_y (replicate 16 S754_nan) = Ok z
    ∧ length z = 16%nat
    ∧ (∀ i, (0 <= i < 16)%Z →
         z !! Z.to_nat i
           = Some (Float32.add (Float32.of_int i) (Float32.of_int (-2 * i)))
         ∧ z !! Z.to_nat i = Some (Float32.of_int (- i)))
    ∧ test_vec_add (replicate 16 S754_nan) = Ok tt.
Proof.
  apply (vec_add_example vec_add_x vec_add_y (replicate 16 S754_nan));
    try reflexivity.
  - intros i Hi. unfold vec_add_x.
    rewrite list_lookup_fmap, lookup_seqZ_lt by lia. cbn. f_equal. f_equal. lia.
  - intros i Hi. unfold vec_add_y.
    rewrite list_lookup_fmap, lookup_seqZ_lt by lia. cbn. f_equal. f_equal. lia.
Defined.

(** ** The timing harness *)

Example measure_cpe_quarter_second :
  Cpe.measure_cpe S half_second_clock 10 256 quarter_second counting_start
  = (Some (S754_infinity false), Cpe.mkState 1%nat 1 5).
Proof. vm_compute. reflexivity. Qed.

Example measure_cpe_one_second :
  Cpe.measure_cpe S half_second_clock 10 256 (Float32.of_int 1) counting_start
  = (Some (S754_finite false 12304687 1), Cpe.mkState 2%nat 2 6).
Proof. vm_compute. reflexivity. Qed.

Section CpeFacts.
Context {W : Type}.
Variable target : W → W.
Variable clock : nat → spec_float.
Import Cpe.
Local Open Scope Z_scope.

Lemma invoke_calls b (st : state (W:=W)) :
  0 <= b → calls (invoke target b st) = calls st + b.
Proof. intros Hb. cbn. lia. Qed.

Lemma estimate_calls ts fuel : ∀ b (st : state (W:=W)),
  0 <= b →
  calls st <= calls (snd (estimate target clock fuel ts b st))
  ∧ (fuel ≠ O → calls st + b <= calls (snd (estimate target clock fuel ts b st)))
  ∧ (∀ b', fst (estimate target clock fuel ts b st) = Some b' → b <= b').
Proof.
  induction fuel as [|f IH]; intros b st Hb.
  - cbn. split; [lia|]. split; [done|]. intros b' H. discriminate.
  - cbn [estimate get_time].
    match goal with |- context [if ?c then _ else _] => destruct c end.
    + match goal with
      | |- context [estimate _ _ f ts (b * 2) ?s] =>
        destruct (IH (b * 2) s) as (H1 & _ & H3); [lia|];
        assert (Hs : calls s = calls st + b) by (cbn; lia)
      end.
      rewrite Hs in H1. split; [lia|]. split; [lia|].
      intros b' Hb'. apply H3 in Hb'. lia.
    + cbn. split; [lia|]. split; [lia|]. intros b' [= <-]. lia.
Qed.

Lemma timed_calls ts b start fuel : ∀ total (st : state (W:=W)),
  0 <= b →
  calls st <= calls (snd (timed target clock fuel ts b start total st)).
Proof.
  induction fuel as [|f IH]; intros total st Hb.
  - cbn. lia.
  - cbn [timed get_time].
    match goal with |- context [if ?c then _ else _] => destruct c end.
    + etransitivity; [|apply IH; exact Hb]. cbn. lia.
    + cbn. lia.
Qed.

Lemma div_by_zero_not_finite x :
  is_finite (float64_to_real (Float64.div x (Float64.of_int 0))) = false.
Proof. by destruct x as [[]|[]| |[] ? ?]. Qed.

(** C8, as the code has it: with [time_second == 0] the target is invoked
    exactly once, the clock is not read and a NaN is returned; with
    [time_second != 0] the target is invoked at least once (the first
    pass of the first loop, whatever the clock says), and the value
    returned is a quotient that need not be finite: with
    [elements_per_call = 0] it never is. *)
Theorem measure_cpe_degenerate_and_calls fuel elements_per_call time_second
    (st : state (W:=W)) :
  (SFeqb time_second (Float32.of_int 0) = true →
     measure_cpe target clock fuel elements_per_call time_second st
     = (Some S754_nan,
        mkState (target (world st)) (calls st + 1) (reads st)))
  ∧ (SFeqb time_second (Float32.of_int 0) = false → fuel ≠ O →
     calls st + 1
     <= calls (snd (measure_cpe target clock fuel elements_per_call
                      time_second st)))
  ∧ (SFeqb time_second (Float32.of_int 0) = false →
     elements_per_call = 0 →
     ∀ r, fst (measure_cpe target clock fuel elements_per_call
                 time_second st) = Some r →
          is_finite r = false).
Proof.
  split; [|split].
  - intros E. unfold measure_cpe. rewrite E. reflexivity.
  - intros E Hf. unfold measure_cpe. rewrite E.
    destruct (estimate_calls time_second fuel 1 st) as (_ & H2 & H3); [lia|].
    specialize (H2 Hf).
    destruct (estimate target clock fuel time_second 1 st) as [[b|] st1];
      cbn [fst snd] in *; [|exact H2].
    specialize (H3 b eq_refl). cbn [get_time].
    pose proof (timed_calls time_second b (clock (reads st1)) fuel 0
                  (mkState (world st1) (calls st1) (S (reads st1)))
                  ltac:(lia)) as H4.
    destruct (timed target clock fuel time_second b (clock (reads st1)) 0
                (mkState (world st1) (calls st1) (S (reads st1))))
      as [[total|] st2]; cbn [fst snd calls] in *; lia.
  - intros E -> r. unfold measure_cpe. rewrite E.
    destruct (estimate target clock fuel time_second 1 st) as [[b|] st1];
      [|discriminate].
    cbn [get_time].
    destruct (timed target clock fuel time_second b (clock (reads st1)) 0
                (mkState (world st1) (calls st1) (S (reads st1))))
      as [[total|] st2]; [|discriminate].
    cbn [fst]. intros [= <-]. rewrite Z.mul_0_r.
    apply div_by_zero_not_finite.
Qed.

End CpeFacts.

(** C8 fails as stated: with a budget of a quarter of a second and a
    target that takes half a second, [time_second != 0] and the value
    returned is [+inf], the quotient by [float64(0 * 256)]. *)
Lemma measure_cpe_nonzero_budget_infinite :
  SFeqb quarter_second (Float32.of_int 0) = false
  ∧ ∃ st,
      Cpe.measure_cpe S half_second_clock 10 256 quarter_second counting_start
      = (Some (S754_infinity false), st)
      ∧ is_finite (S754_infinity false) = false.
Proof.
  split; [vm_compute; reflexivity|].
  eexists. split; [vm_compute; reflexivity|reflexivity].
Qed.

Lemma measure_cpe_degenerate_and_calls_witness :
  Cpe.measure_cpe S half_second_clock 10 256 (Float32.of_int 0) counting_start
  = (Some S754_nan, Cpe.mkState 1%nat 1 0)
  ∧ (0 + 1 <= Cpe.calls (snd (Cpe.measure_cpe S half_second_clock 10 256
                               quarter_second counting_start)))%Z.
Proof.
  split.
  - apply (proj1 (measure_cpe_degenerate_and_calls S half_second_clock 10 256
                    (Float32.of_int 0) counting_start)).
    vm_compute. reflexivity.
  - apply (proj1 (proj2 (measure_cpe_degenerate_and_calls S half_second_clock
                             10 256 quarter_second counting_start))).
    + vm_compute. reflexivity.
    + discriminate.
Defined.

(** * Further properties *)

(** ** Matrix accessors and algebra *)

Section MatrixExtras.
Context {Expr : Type}.
Variable Expr_new : Expr.
Variable Expr_mul Expr_add : Expr → Expr → Expr.
Import Tlang.
Local Open Scope Z_scope.
Implicit Types (M A B : Matrix Expr) (i j : Z).

Lemma TC_ASSERT_bind_Ok {X : Type} b (k : unit → outcome X) (x : X) :
  (TC_ASSERT b ≫= k) = Ok x → b = true ∧ k tt = Ok x.
Proof. destruct b; cbn; [auto|discriminate]. Qed.

Lemma entries_set_Ok (l l' : list Expr) z e :
  entries_set l z e = Ok l' →
  0 <= z < Z.of_nat (length l) ∧ l' = <[Z.to_nat z := e]> l.
Proof.
  unfold entries_set.
  destruct ((0 <=? z) && (z <? Z.of_nat (length l))) eqn:E; [|discriminate].
  intros [= <-]. apply andb_true_iff in E as [E1 E2].
  apply Z.leb_le in E1. apply Z.ltb_lt in E2. done.
Qed.

Lemma entries_at_insert_eq (l : list Expr) z e :
  0 <= z < Z.of_nat (length l) →
  entries_at (<[Z.to_nat z := e]> l) z = Ok e.
Proof.
  intros Hz. unfold entries_at. destruct (Z.ltb_spec z 0); [lia|].
  by rewrite list_lookup_insert_eq by lia.
Qed.

Lemma entries_at_insert_ne (l : list Expr) z z' e :
  0 <= z → z ≠ z' →
  entries_at (<[Z.to_nat z := e]> l) z' = entries_at l z'.
Proof.
  intros Hz Hne. unfold entries_at. destruct (Z.ltb_spec z' 0); [done|].
  by rewrite list_lookup_insert_ne by lia.
Qed.

(** X1: [operator*] aborts whenever [A.m != B.n], and [operator+]
    whenever the shapes differ, before anything is allocated or read:
    whatever the entries are, and also for matrices no constructor
    produces. *)
Theorem shape_mismatch_aborts A B :
  (m A ≠ n B →
     operator_mul Expr_new Expr_mul Expr_add A B = AssertionFailed)
  ∧ (n A ≠ n B ∨ m A ≠ m B →
     operator_add Expr_new Expr_add A B = AssertionFailed).
Proof.
  split; intros H.
  - by apply operator_mul_shape_mismatch.
  - by apply operator_add_shape_mismatch.
Qed.

(** X2: on operands where no column count exceeds a row count
    ([B.m <= A.m = B.n <= A.n]), [operator*] returns the [A.n x B.m]
    matrix whose entry [(i, j)] is [A(i,0) * B(0,j)] with the terms
    [k = 1 .. A.m - 1] added in turn from the left. *)
Theorem operator_mul_on_tall_shapes A B rows inner cols fa fb :
  grid A rows inner fa → grid B inner cols fb →
  0 <= cols <= inner → inner <= rows →
  ∃ C, operator_mul Expr_new Expr_mul Expr_add A B = Ok C
    ∧ n C = rows ∧ m C = cols
    ∧ Z.of_nat (length (entries C)) = rows * cols
    ∧ ∀ i j, 0 <= i < rows → 0 <= j < cols →
        get2 C i j
        = Ok (fold_left (λ c k, Expr_add c (Expr_mul (fa i k) (fb k j)))
                        (seqZ 1 (inner - 1)) (Expr_mul (fa i 0) (fb 0 j))).
Proof.
  intros HA HB Hc Hr.
  destruct (operator_mul_tall Expr_new Expr_mul Expr_add A B rows inner cols
              fa fb HA HB Hc Hr) as (C & E & HC).
  exists C. split; [exact E|]. pose proof HC as (Hn & Hm & Hl & _).
  repeat split; try done.
  intros i j Hi Hj.
  by rewrite (get2_filled _ C rows cols _ i j HC) by (done || lia).
Qed.

(** X3: on operands of one shape with no more columns than rows,
    [operator+] returns the matrix of that shape whose entry [(i, j)] is
    [A(i,j) + B(i,j)]. *)
Theorem operator_add_on_tall_shapes A B rows cols fa fb :
  grid A rows cols fa → grid B rows cols fb → 0 <= cols <= rows →
  ∃ C, operator_add Expr_new Expr_add A B = Ok C
    ∧ n C = rows ∧ m C = cols
    ∧ Z.of_nat (length (entries C)) = rows * cols
    ∧ ∀ i j, 0 <= i < rows → 0 <= j < cols →
        get2 C i j = Ok (Expr_add (fa i j) (fb i j)).
Proof.
  intros HA HB Hc.
  destruct (operator_add_tall Expr_new Expr_mul Expr_add A B rows cols fa fb
              HA HB Hc)
    as (C & E & HC).
  exists C. split; [exact E|]. pose proof HC as (Hn & Hm & Hl & _).
  repeat split; try done.
  intros i j Hi Hj.
  by rewrite (get2_filled _ C rows cols _ i j HC) by (done || lia).
Qed.

(** X4: an assignment through an accessor that succeeds can be read back:
    after [M(i, j) = e] the same access returns [e], the shape is
    unchanged, and every access that lands on another element of
    [entries] returns what it returned before; likewise for [M(i) = e]. *)
Theorem accessor_round_trip M M' i j e :
  (set2 M i j e = Ok M' →
     get2 M' i j = Ok e
     ∧ n M' = n M ∧ m M' = m M
     ∧ length (entries M') = length (entries M)
     ∧ ∀ i' j', i' * m M + j' ≠ i * m M + j →
         get2 M' i' j' = get2 M i' j')
  ∧ (set1 M i e = Ok M' →
     get1 M' i = Ok e
     ∧ n M' = n M ∧ m M' = m M
     ∧ length (entries M') = length (entries M)
     ∧ ∀ i', i' ≠ i → get1 M' i' = get1 M i').
Proof.
  split.
  - unfold set2. intros H.
    apply TC_ASSERT_bind_Ok in H as [Hi H].
    apply TC_ASSERT_bind_Ok in H as [Hj H].
    destruct (entries_set (entries M) (i * m M + j) e) as [l| | |] eqn:El;
      try discriminate.
    cbn in H. injection H as <-.
    apply entries_set_Ok in El as [Hz ->]. cbn [n m entries].
    split; [|split; [done|split; [done|split; [apply length_insert|]]]].
    + unfold get2. cbn [n m entries]. rewrite Hi, Hj. cbn.
      by apply entries_at_insert_eq.
    + intros i' j' Hne. unfold get2. cbn [n m entries].
      destruct (TC_ASSERT ((0 <=? i') && (i' <? n M))); try done. cbn.
      destruct (TC_ASSERT ((0 <=? j') && (j' <? n M))); try done. cbn.
      apply entries_at_insert_ne; [lia|congruence].
  - unfold set1. intros H.
    apply TC_ASSERT_bind_Ok in H as [Hi H].
    apply TC_ASSERT_bind_Ok in H as [Hj H].
    destruct (entries_set (entries M) i e) as [l| | |] eqn:El;
      try discriminate.
    cbn in H. injection H as <-.
    apply entries_set_Ok in El as [Hz ->]. cbn [n m entries].
    split; [|split; [done|split; [done|split; [apply length_insert|]]]].
    + unfold get1. cbn [n m entries]. rewrite Hi, Hj. cbn.
      by apply entries_at_insert_eq.
    + intros i' Hne. unfold get1. cbn [n m entries].
      destruct (TC_ASSERT ((0 <=? i') && (i' <? n M * m M))); try done. cbn.
      destruct (TC_ASSERT ((n M =? 1) || (m M =? 1))); try done. cbn.
      apply entries_at_insert_ne; [lia|congruence].
Qed.

Lemma get1_column M :
  m M = 1 → ∀ i, get1 M i = get2 M i 0.
Proof.
  intros Hm i. rewrite get1_unfold, get2_unfold, Hm.
  replace (i * 1 + 0) with i by lia. rewrite Z.mul_1_r.
  destruct (Z.leb_spec 0 i), (Z.ltb_spec i (n M)); cbn; try done.
  destruct (Z.ltb_spec 0 (n M)); [|lia].
  by rewrite orb_true_r.
Qed.

(** X5: on a column vector ([m == 1]) the 1-D accessor and the 2-D
    accessor with column 0 are the same function; on a row vector
    ([n == 1]) only the 1-D accessor reaches the elements after the
    first: [M(0, j)] with [1 <= j < m] aborts while [M(j)] returns
    [entries[j]]. *)
Theorem vector_accessors M :
  (m M = 1 → ∀ i, get1 M i = get2 M i 0)
  ∧ (n M = 1 → wf M → ∀ j, 1 <= j < m M →
     get2 M 0 j = AssertionFailed
     ∧ ∃ e, entries M !! Z.to_nat j = Some e ∧ get1 M j = Ok e).
Proof.
  split.
  - apply get1_column.
  - intros Hn [_ Hl] j Hj. split.
    + rewrite get2_unfold, Hn.
      destruct (Z.ltb_spec j 1); [lia|]. cbn. by rewrite andb_false_r.
    + rewrite get1_unfold, Hn.
      replace ((0 <=? j) && (j <? 1 * m M) && ((1 =? 1) || (m M =? 1)))
        with true
        by (symmetry; rewrite !andb_true_iff, Z.leb_le, Z.ltb_lt; cbn; lia).
      apply entries_at_Ok. lia.
Qed.

(** X6: the graph of [test_mat_vec_mul]: for a [d x d] matrix and a
    column vector of [d] entries, [auto mv = m * v] succeeds and [mv(i)]
    is [m(i,0) * v(0)] with [m(i,k) * v(k)], [k = 1 .. d - 1], added in
    turn from the left. *)
Theorem mat_vec_product_entry A v d fm fv :
  grid A d d fm → grid v d 1 fv → 1 <= d →
  ∃ mv, operator_mul Expr_new Expr_mul Expr_add A v = Ok mv
    ∧ n mv = d ∧ m mv = 1
    ∧ ∀ i, 0 <= i < d →
        get1 mv i
        = Ok (fold_left (λ c k, Expr_add c (Expr_mul (fm i k) (fv k 0)))
                        (seqZ 1 (d - 1)) (Expr_mul (fm i 0) (fv 0 0))).
Proof.
  intros HA Hv Hd.
  destruct (operator_mul_tall Expr_new Expr_mul Expr_add A v d d 1 fm fv
              HA Hv) as (mv & E & HC); [lia..|].
  exists mv. split; [exact E|]. pose proof HC as (Hn & Hm & Hl & _).
  split; [done|]. split; [done|]. intros i Hi.
  rewrite (get1_column mv Hm i).
  by rewrite (get2_filled _ mv d 1 _ i 0 HC) by (done || lia).
Qed.

(** X7: the assertions of the 2-D accessor do not keep it inside
    [entries].  On a matrix as constructed, an access that passes them
    is out of range exactly when [i * m + j >= n * m]; whenever the
    matrix has fewer columns than rows, [M(n - 1, n - 1)] is such an
    access. *)
Theorem get2_past_the_end M i j :
  wf M → 0 <= i < n M → 0 <= j < n M →
  (get2 M i j = Undefined ↔ n M * m M <= i * m M + j)
  ∧ (m M < n M → get2 M (n M - 1) (n M - 1) = Undefined).
Proof.
  intros [Hnm Hl] Hi Hj.
  assert (Hm : 0 <= m M) by nia.
  assert (Hidx : ∀ i' j', 0 <= i' < n M → 0 <= j' < n M →
            (get2 M i' j' = Undefined ↔ n M * m M <= i' * m M + j')).
  { intros i' j' Hi' Hj'. rewrite get2_unfold.
    replace ((0 <=? i') && (i' <? n M) && ((0 <=? j') && (j' <? n M)))
      with true
      by (symmetry; rewrite !andb_true_iff, !Z.leb_le, !Z.ltb_lt; lia).
    assert (0 <= i' * m M + j') by nia.
    unfold entries_at. destruct (Z.ltb_spec (i' * m M + j') 0); [lia|].
    destruct (entries M !! Z.to_nat (i' * m M + j')) as [e|] eqn:El.
    - apply lookup_lt_Some in El. split; [discriminate|lia].
    - apply lookup_ge_None in El. split; [lia|done]. }
  split; [by apply Hidx|].
  intros Hlt. apply Hidx; [lia..|]. nia.
Qed.

End MatrixExtras.

Lemma small_index i : (0 <= i < 2)%Z → i = 0%Z ∨ i = 1%Z.
Proof. lia. Qed.

Lemma grid_sq22 :
  Tlang.grid sq22 2 2 (λ i j, Leaf (Z.to_nat (i * 2 + j))).
Proof.
  repeat split.
  intros i j Hi Hj _.
  destruct (small_index i Hi) as [-> | ->], (small_index j Hj) as [-> | ->];
    reflexivity.
Qed.

Lemma grid_sq22' :
  Tlang.grid sq22' 2 2 (λ i j, Leaf (Z.to_nat (4 + i * 2 + j))).
Proof.
  repeat split.
  intros i j Hi Hj _.
  destruct (small_index i Hi) as [-> | ->], (small_index j Hj) as [-> | ->];
    reflexivity.
Qed.

Lemma grid_col21 :
  Tlang.grid col21 2 1 (λ i j, Leaf (Z.to_nat (2 + i + j))).
Proof.
  repeat split.
  intros i j Hi Hj _. assert (j = 0%Z) as -> by lia.
  destruct (small_index i Hi) as [-> | ->]; reflexivity.
Qed.

Lemma operator_mul_on_tall_shapes_witness :
  ∃ C, Tlang.operator_mul (Leaf 0) Multiply Add sq22 sq22' = Ok C
    ∧ Tlang.n C = 2%Z ∧ Tlang.m C = 2%Z
    ∧ Z.of_nat (length (Tlang.entries C)) = (2 * 2)%Z
    ∧ ∀ i j, (0 <= i < 2)%Z → (0 <= j < 2)%Z →
        Tlang.get2 C i j
        = Ok (fold_left
                (λ c k, Add c (Multiply (Leaf (Z.to_nat (i * 2 + k)))
                                        (Leaf (Z.to_nat (4 + k * 2 + j)))))
                (seqZ 1 (2 - 1))
                (Multiply (Leaf (Z.to_nat (i * 2 + 0)))
                          (Leaf (Z.to_nat (4 + 0 * 2 + j))))).
Proof.
  apply (operator_mul_on_tall_shapes (Leaf 0) Multiply Add sq22 sq22' 2 2 2
           _ _ grid_sq22 grid_sq22'); lia.
Defined.

Lemma operator_add_on_tall_shapes_witness :
  ∃ C, Tlang.operator_add (Leaf 0) Add sq22 sq22' = Ok C
    ∧ Tlang.n C = 2%Z ∧ Tlang.m C = 2%Z
    ∧ Z.of_nat (length (Tlang.entries C)) = (2 * 2)%Z
    ∧ ∀ i j, (0 <= i < 2)%Z → (0 <= j < 2)%Z →
        Tlang.get2 C i j
        = Ok (Add (Leaf (Z.to_nat (i * 2 + j)))
                  (Leaf (Z.to_nat (4 + i * 2 + j)))).
Proof.
  apply (operator_add_on_tall_shapes (Leaf 0) Multiply Add sq22 sq22' 2 2
           _ _ grid_sq22 grid_sq22'). lia.
Defined.

Lemma mat_vec_product_entry_witness :
  ∃ mv, Tlang.operator_mul (Leaf 0) Multiply Add sq22 col21 = Ok mv
    ∧ Tlang.n mv = 2%Z ∧ Tlang.m mv = 1%Z
    ∧ ∀ i, (0 <= i < 2)%Z →
        Tlang.get1 mv i
        = Ok (fold_left
                (λ c k, Add c (Multiply (Leaf (Z.to_nat (i * 2 + k)))
                                        (Leaf (Z.to_nat (2 + k + 0)))))
                (seqZ 1 (2 - 1))
                (Multiply (Leaf (Z.to_nat (i * 2 + 0)))
                          (Leaf (Z.to_nat (2 + 0 + 0))))).
Proof.
  apply (mat_vec_product_entry (Leaf 0) Multiply Add sq22 col21 2
           _ _ grid_sq22 grid_col21). lia.
Defined.

Lemma get2_past_the_end_witness :
  (Tlang.get2 col21 1 1 = Undefined
     ↔ (Tlang.n col21 * Tlang.m col21 <= 1 * Tlang.m col21 + 1)%Z)
  ∧ ((Tlang.m col21 < Tlang.n col21)%Z →
     Tlang.get2 col21 (Tlang.n col21 - 1) (Tlang.n col21 - 1) = Undefined).
Proof.
  apply (get2_past_the_end col21 1 1).
  - unfold Tlang.wf. cbn. lia.
  - cbn. lia.
  - cbn. lia.
Defined.

(** ** The two validation comparisons *)

Section ValidationExtras.
Import Validation.

Lemma sub_self_finite s m e :
  Float32.sub (S754_finite s m e) (S754_finite s m e) = S754_zero false.
Proof.
  unfold Float32.sub, SFsub. cbv zeta. rewrite Z.min_id. unfold shl_align.
  rewrite !Z.sub_diag. reflexivity.
Qed.

Lemma sub_nan a b :
  is_nan a = true ∨ is_nan b = true → Float32.sub a b = S754_nan.
Proof.
  intros [H|H].
  - by destruct a.
  - destruct b; try discriminate. by destruct a.
Qed.

Lemma matmatmul_check_self a :
  (is_finite a = true → matmatmul_check a a = Ok tt)
  ∧ (is_finite a ≠ true → matmatmul_check a a = AssertionFailed).
Proof.
  unfold matmatmul_check.
  destruct a as [s|s| |s m e].
  - by destruct s.
  - by destruct s.
  - done.
  - rewrite sub_self_finite. done.
Qed.

(** X8: when the compiled kernel and the reference agree exactly, the
    comparison of [Tlang_matmatmul] passes if and only if the common
    value is finite: two equal infinities, like two NaNs, abort the
    run. *)
Theorem matmatmul_check_equal_values a :
  matmatmul_check a a = Ok tt ↔ is_finite a = true.
Proof.
  split.
  - intros H. destruct (is_finite a) eqn:E; [done|].
    rewrite (proj2 (matmatmul_check_self a)) in H; [discriminate|].
    by rewrite E.
  - intros H. apply matmatmul_check_self. by rewrite H.
Qed.

(** X9: a NaN on either side always aborts the comparison of
    [Tlang_matmatmul] and never aborts the one of [test_mat_vec_mul];
    the latter accepts any two equal values, infinities included. *)
Theorem nan_in_validation a b :
  (is_nan a = true ∨ is_nan b = true →
     matmatmul_check a b = AssertionFailed ∧ matvecmul_check a b = Ok tt)
  ∧ matvecmul_check a a = Ok tt.
Proof.
  split.
  - intros H. unfold matmatmul_check, matvecmul_check.
    by rewrite (sub_nan a b H).
  - unfold matvecmul_check. destruct a as [s|s| |s m e].
    + by destruct s.
    + by destruct s.
    + done.
    + by rewrite sub_self_finite.
Qed.

End ValidationExtras.

(** ** The timing harness: what it does to the world *)

Section CpeExtras.
Context {W : Type}.
Variable target : W → W.
Variable clock : nat → spec_float.
Import Cpe.
Local Open Scope Z_scope.
Implicit Types (st : state (W:=W)).

Lemma Z_iter_nat {X : Type} (f : X → X) (x : X) k :
  0 <= k → Z.iter k f x = Nat.iter (Z.to_nat k) f x.
Proof.
  intros Hk. destruct k as [|p|p]; [done| |lia].
  cbn [Z.iter Z.to_nat]. apply Pos2Nat.inj_iter.
Qed.

Local Abbreviation advanced := (Cpe.advanced target).

Lemma advanced_refl st : advanced st 0 0 st.
Proof. repeat split; [lia|lia|]. by rewrite Nat.add_0_r. Qed.

Lemma advanced_trans st1 st2 st3 k1 k2 r1 r2 :
  advanced st1 k1 r1 st2 → advanced st2 k2 r2 st3 →
  advanced st1 (k1 + k2) (r1 + r2) st3.
Proof.
  intros (H1 & C1 & W1 & R1) (H2 & C2 & W2 & R2).
  repeat split; [lia|lia| |lia].
  rewrite W2, W1, Z2Nat.inj_add, (Nat.add_comm (Z.to_nat k1)) by lia.
  by rewrite Nat.iter_add.
Qed.

Lemma advanced_invoke st b :
  0 <= b → advanced st b 0 (invoke target b st).
Proof.
  intros Hb. repeat split; cbn; [lia|lia| |lia].
  by apply Z_iter_nat.
Qed.

Lemma advanced_get_time st :
  advanced st 0 1 (snd (get_time clock st)).
Proof. repeat split; cbn; lia. Qed.

Lemma pow2_pos (j : nat) : 1 <= 2 ^ Z.of_nat j.
Proof. pose proof (Z.pow_pos_nonneg 2 (Z.of_nat j)). lia. Qed.

Lemma pow2_succ (j : nat) : 2 ^ Z.of_nat (S j) = 2 * 2 ^ Z.of_nat j.
Proof. rewrite Nat2Z.inj_succ. apply Z.pow_succ_r. lia. Qed.

(** The first loop after [j] passes: [b * (2^j - 1)] invocations and
    [2 * j] clock readings; it ends in pass [j = k + 1] with
    [batch_size = b * 2^k]. *)
Lemma estimate_advanced ts fuel : ∀ b st,
  0 <= b →
  ∃ j : nat,
    advanced st (b * (2 ^ Z.of_nat j - 1)) (2 * j)
      (snd (estimate target clock fuel ts b st))
    ∧ (fuel ≠ O → (1 <= j)%nat)
    ∧ ∀ b', fst (estimate target clock fuel ts b st) = Some b' →
        ∃ k : nat, j = S k ∧ b' = b * 2 ^ Z.of_nat k.
Proof.
  induction fuel as [|f IH]; intros b st Hb.
  - exists O. cbn [estimate fst snd]. split; [|split; [done|discriminate]].
    replace (b * (2 ^ Z.of_nat 0 - 1)) with 0 by (cbn; lia).
    apply advanced_refl.
  - cbn [estimate].
    set (st1 := snd (get_time clock
                  (invoke target b (snd (get_time clock st))))).
    assert (H1 : advanced st b 2 st1).
    { replace b with (0 + b + 0) at 1 by lia.
      change 2%nat with (1 + 0 + 1)%nat.
      eapply advanced_trans; [eapply advanced_trans|];
        [apply advanced_get_time|by apply advanced_invoke
        |apply advanced_get_time]. }
    cbn [get_time fst snd] in st1 |- *. fold st1.
    match goal with |- context [if ?c then _ else _] => destruct c end.
    + destruct (IH (b * 2) st1) as (j & Hj & _ & Hsome); [lia|].
      exists (S j). split; [|split; [lia|]].
      * replace (b * (2 ^ Z.of_nat (S j) - 1))
          with (b + b * 2 * (2 ^ Z.of_nat j - 1))
          by (rewrite pow2_succ; ring).
        replace (2 * S j)%nat with (2 + 2 * j)%nat by lia.
        by eapply advanced_trans.
      * intros b' Hb'. destruct (Hsome b' Hb') as (k & -> & ->).
        exists (S k). split; [done|]. rewrite pow2_succ. ring.
    + exists 1%nat. cbn [fst snd]. split; [|split; [lia|]].
      * replace (b * (2 ^ Z.of_nat 1 - 1)) with b by (cbn; lia). exact H1.
      * intros b' [= <-]. exists O. split; [done|]. cbn. lia.
Qed.

(** The second loop after [q] passes: [q * b] invocations; when it ends,
    [q + 1] clock readings and [total_batches] grown by [q * b]. *)
Lemma timed_advanced ts b start fuel : ∀ total st,
  0 <= b →
  ∃ (q rd : nat),
    advanced st (Z.of_nat q * b) rd
      (snd (timed target clock fuel ts b start total st))
    ∧ ∀ total', fst (timed target clock fuel ts b start total st)
                = Some total' →
        total' = total + Z.of_nat q * b ∧ rd = S q.
Proof.
  induction fuel as [|f IH]; intros total st Hb.
  - exists O, O. cbn. split; [apply advanced_refl|discriminate].
  - cbn [timed get_time].
    match goal with |- context [if ?c then _ else _] => destruct c end.
    + match goal with
      | |- context [timed _ _ f ts b start (total + b) ?s] =>
        destruct (IH (total + b) s) as (q & rd & Hq & Hsome); [lia|];
        assert (H1 : advanced st b 1 s)
      end.
      { replace b with (0 + b) at 1 by lia. change 1%nat with (1 + 0)%nat.
        eapply advanced_trans;
          [apply advanced_get_time|by apply advanced_invoke]. }
      exists (S q), (1 + rd)%nat. split.
      * replace (Z.of_nat (S q) * b) with (b + Z.of_nat q * b) by lia.
        by eapply advanced_trans.
      * intros total' Ht. destruct (Hsome total' Ht) as [-> ->].
        split; lia.
    + exists O, 1%nat. cbn [fst snd]. split.
      * apply (advanced_get_time st).
      * intros total' [= <-]. split; lia.
Qed.

Lemma SFltb_nan_r x : SFltb x S754_nan = false.
Proof. by destruct x. Qed.

Lemma measure_cpe_advanced fuel elements_per_call time_second st :
  ∃ (k : Z) (rd : nat),
    advanced st k rd
      (snd (measure_cpe target clock fuel elements_per_call time_second st))
    ∧ (SFeqb time_second (Float32.of_int 0) = true ∨ fuel ≠ O → 1 <= k).
Proof.
  unfold measure_cpe.
  destruct (SFeqb time_second (Float32.of_int 0)) eqn:E.
  - exists 1, O. cbn [snd]. split; [by apply advanced_invoke|lia].
  - destruct (estimate_advanced time_second fuel 1 st) as (j & Hj & Hpos & Hb);
      [lia|].
    rewrite Z.mul_1_l in Hj.
    assert (Hk : fuel ≠ O → 1 <= 2 ^ Z.of_nat j - 1).
    { intros Hf. specialize (Hpos Hf). destruct j as [|j]; [lia|].
      rewrite pow2_succ. pose proof (pow2_pos j). lia. }
    destruct (estimate target clock fuel time_second 1 st) as [[b|] st1];
      cbn [fst snd] in *.
    + destruct (Hb b eq_refl) as (k & -> & ->). rewrite Z.mul_1_l.
      cbn [get_time].
      match goal with
      | |- context [timed _ _ fuel time_second _ ?t 0 ?s] =>
        destruct (timed_advanced time_second (2 ^ Z.of_nat k) t fuel 0 s)
          as (q & rd & Hq & _); [pose proof (pow2_pos k); lia|];
        assert (H1 : advanced st1 0 1 s) by apply (advanced_get_time st1);
        destruct (timed target clock fuel time_second (2 ^ Z.of_nat k) t 0 s)
          as [[total|] st2]
      end; cbn [fst snd] in *.
      * eexists _, _. split.
        -- eapply advanced_trans; [exact Hj|].
           eapply advanced_trans; [exact H1|].
           eapply advanced_trans; [exact Hq|apply advanced_get_time].
        -- intros [?|Hf]; [done|]. specialize (Hk Hf).
           pose proof (pow2_pos k). nia.
      * eexists _, _. split.
        -- eapply advanced_trans; [exact Hj|].
           eapply advanced_trans; [exact H1|exact Hq].
        -- intros [?|Hf]; [done|]. specialize (Hk Hf).
           pose proof (pow2_pos k). nia.
    + exists (2 ^ Z.of_nat j - 1), (2 * j)%nat. split; [exact Hj|].
      intros [?|Hf]; [done|auto].
Qed.

(** X10: whatever the clock, the budget and the fuel, [measure_cpe]
    changes the world only by invoking the target: the state it leaves is
    the one it found after [k] invocations, where [k] is the number it
    counted, and [k >= 1] as soon as the first loop is entered or the
    budget is zero. *)
Theorem measure_cpe_only_invokes fuel elements_per_call time_second st :
  ∃ (k : Z) (rd : nat),
    0 <= k
    ∧ calls (snd (measure_cpe target clock fuel elements_per_call
                    time_second st)) = calls st + k
    ∧ world (snd (measure_cpe target clock fuel elements_per_call
                    time_second st))
      = Nat.iter (Z.to_nat k) target (world st)
    ∧ reads (snd (measure_cpe target clock fuel elements_per_call
                    time_second st)) = (reads st + rd)%nat
    ∧ (SFeqb time_second (Float32.of_int 0) = true ∨ fuel ≠ O → 1 <= k).
Proof.
  destruct (measure_cpe_advanced fuel elements_per_call time_second st)
    as (k & rd & (H0 & Hc & Hw & Hr) & Hk).
  exists k, rd. auto.
Qed.


(** X12: with a NaN budget every comparison of the two loops is false:
    the target runs exactly once, the clock is read five times, and the
    value returned, a quotient by [float64(0)], is not finite. *)
Theorem measure_cpe_nan_budget fuel elements_per_call time_second st :
  is_nan time_second = true → fuel ≠ O →
  ∃ r, fst (measure_cpe target clock fuel elements_per_call time_second st)
       = Some r
    ∧ is_finite r = false
    ∧ advanced st 1 5
        (snd (measure_cpe target clock fuel elements_per_call
                time_second st)).
Proof.
  intros Hnan Hf. destruct time_second; try discriminate.
  destruct fuel as [|f]; [done|].
  unfold measure_cpe.
  change (SFeqb S754_nan (Float32.of_int 0)) with false. cbv iota.
  cbn [estimate timed get_time real_to_float64].
  change (Float64.mul c_0_05 S754_nan) with S754_nan.
  rewrite !SFltb_nan_r. cbn [fst snd reads].
  eexists. split; [reflexivity|]. split.
  - rewrite Z.mul_0_l. apply div_by_zero_not_finite.
  - repeat split; cbn; lia.
Qed.

End CpeExtras.


Lemma measure_cpe_nan_budget_witness :
  ∃ r, fst (Cpe.measure_cpe S half_second_clock 10 256 S754_nan counting_start)
       = Some r
    ∧ is_finite r = false
    ∧ Cpe.advanced S counting_start 1 5
        (snd (Cpe.measure_cpe S half_second_clock 10 256 S754_nan
                counting_start)).
Proof.
  apply (measure_cpe_nan_budget S half_second_clock 10 256 S754_nan
           counting_start); [reflexivity|discriminate].
Defined.

(** ** The kernels under the harness *)

Section HarnessedKernels.
Context {T : Type}.
Variable fmul fadd : T → T → T.
Variable dim : Z.
Import Kernels.
Local Open Scope Z_scope.

Lemma iter_failed (task : list T → outcome (list T)) k w :
  (∀ C, w ≠ Ok C) → Nat.iter k (buffer_target task) w = w.
Proof.
  intros Hw. induction k as [|k IH]; [done|].
  rewrite Nat.iter_succ, IH.
  destruct w; [by destruct (Hw a)|done..].
Qed.

Lemma iter_buffer_target (task : list T → outcome (list T)) k : ∀ C,
  Nat.iter k (buffer_target task) (Ok C) = run_times task k C.
Proof.
  induction k as [|k IH]; intros C; [done|].
  rewrite Nat.iter_succ_r. cbn [run_times].
  change (buffer_target task (Ok C)) with (task C).
  destruct (task C) as [C1| | |]; [apply IH|by apply iter_failed..].
Qed.

Lemma harness_runs_task (task : list T → outcome (list T)) clock fuel ts C :
  SFeqb ts (Float32.of_int 0) = true ∨ fuel ≠ O →
  ∃ times,
    Cpe.world (snd (Cpe.measure_cpe (buffer_target task) clock fuel N ts
                      (Cpe.mkState (Ok C) 0 0)))
    = run_times task (S times) C.
Proof.
  intros Hf.
  destruct (measure_cpe_advanced (buffer_target task) clock fuel N ts
              (Cpe.mkState (Ok C) 0 0)) as (k & rd & (_ & _ & Hw & _) & Hk).
  specialize (Hk Hf). exists (Z.to_nat k - 1)%nat.
  rewrite Hw. cbn [Cpe.world]. rewrite iter_buffer_target.
  f_equal. lia.
Qed.

(** X13: [AOSOA_matmul<dim>(A, B, C)] and [SOA_matmul<dim>(A, B, C)] as a
    whole, harness included: whatever the clock and the budget (a zero
    budget, or at least one pass of the first loop), when the function is
    left the output buffer holds the batch of left-nested products in the
    kernel's layout, however often the harness ran the kernel. *)
Theorem matmul_under_harness clock fuel default_measurement_time
    (A B C : list T) (MA MB : Z → Z → Z → T) :
  dim = 1 ∨ dim = 2 ∨ dim = 4 →
  SFeqb default_measurement_time (Float32.of_int 0) = true ∨ fuel ≠ O →
  Z.of_nat (length C) = N * dim * dim →
  (holds dim (AOSOA_offset dim) A MA → holds dim (AOSOA_offset dim) B MB →
   ∃ C', Cpe.world (snd (AOSOA_matmul fmul fadd dim clock fuel
                           default_measurement_time A B C)) = Ok C'
     ∧ holds dim (AOSOA_offset dim) C' (batch_product fmul fadd dim MA MB))
  ∧ (holds dim (SOA_offset dim) A MA → holds dim (SOA_offset dim) B MB →
     ∃ C', Cpe.world (snd (SOA_matmul fmul fadd dim clock fuel
                             default_measurement_time A B C)) = Ok C'
       ∧ holds dim (SOA_offset dim) C' (batch_product fmul fadd dim MA MB)).
Proof.
  intros Hdim Hf LC. split; intros HA HB.
  - unfold AOSOA_matmul.
    destruct (harness_runs_task (AOSOA_task fmul fadd dim A B) clock fuel
                default_measurement_time C Hf) as (times & ->).
    apply (AOSOA_kernel_spec fmul fadd dim A B C MA MB times);
      [lia|done..].
  - unfold SOA_matmul.
    destruct (harness_runs_task (SOA_task fmul fadd dim A B) clock fuel
                default_measurement_time C Hf) as (times & ->).
    apply (SOA_kernel_spec fmul fadd dim A B C MA MB times);
      [lia|done..].
Qed.

End HarnessedKernels.

Lemma matmul_under_harness_witness :
  ∃ C', Cpe.world (snd (AOSOA_matmul Float32.mul Float32.add 2
                          half_second_clock 10 (Float32.of_int 1)
                          (twos 2) (threes 2) (zeros 2))) = Ok C'
    ∧ Kernels.holds 2 (Kernels.AOSOA_offset 2) C'
        (Kernels.batch_product Float32.mul Float32.add 2
           (λ _ _ _, Float32.of_int 2) (λ _ _ _, Float32.of_int 3)).
Proof.
  apply (proj1 (matmul_under_harness Float32.mul Float32.add 2
                  half_second_clock 10 (Float32.of_int 1)
                  (twos 2) (threes 2) (zeros 2)
                  (λ _ _ _, Float32.of_int 2) (λ _ _ _, Float32.of_int 3)
                  (or_intror (or_introl eq_refl))
                  (or_intror (λ H : 10%nat = O, O_S 9 (eq_sym H)))
                  eq_refl)).
  - apply holds_replicate; [lia|]. apply AOSOA_offset_range.
  - apply holds_replicate; [lia|]. apply AOSOA_offset_range.
Defined.

(** ** Loops that fault *)

Lemma bind_not_Ok {X Y : Type} (x : outcome X) (f : X → outcome Y) :
  (∀ a, x = Ok a → ∀ y, f a ≠ Ok y) → ∀ y, (x ≫= f) ≠ Ok y.
Proof. intros H y. destruct x; cbn; try discriminate. by apply H. Qed.

Lemma for_range_preserves {St : Type} (I : St → Prop) body cnt : ∀ lo (s s' : St),
  (∀ i s s', (lo <= i < lo + Z.of_nat cnt)%Z →
     I s → body i s = Ok s' → I s') →
  I s → for_range lo cnt body s = Ok s' → I s'.
Proof.
  induction cnt as [|c IH]; intros lo s s' Hpres Hs.
  - cbn. by intros [= <-].
  - cbn [for_range]. destruct (body lo s) as [s1| | |] eqn:E1; try done.
    rewrite bind_Ok. apply IH.
    + intros i s0 s0' Hi. apply Hpres. lia.
    + apply (Hpres lo s s1); [lia|done..].
Qed.

Lemma for_loop_preserves {St : Type} (I : St → Prop) body lo hi (s s' : St) :
  (∀ i s s', (lo <= i < hi)%Z → I s → body i s = Ok s' → I s') →
  I s → for_loop lo hi body s = Ok s' → I s'.
Proof.
  intros Hpres. unfold for_loop. apply for_range_preserves.
  intros i s0 s0' Hi. apply Hpres. lia.
Qed.

Lemma for_range_faults {St : Type} (I : St → Prop) body cnt i : ∀ lo (s : St),
  (∀ i s s', (lo <= i < lo + Z.of_nat cnt)%Z →
     I s → body i s = Ok s' → I s') →
  (lo <= i < lo + Z.of_nat cnt)%Z →
  (∀ s, I s → ∀ s', body i s ≠ Ok s') →
  I s → ∀ s', for_range lo cnt body s ≠ Ok s'.
Proof.
  induction cnt as [|c IH]; intros lo s Hpres Hi Hbad Hs s'; [lia|].
  cbn [for_range]. destruct (body lo s) as [s1| | |] eqn:E1; try done.
  rewrite bind_Ok.
  destruct (decide (i = lo)) as [->|Hne]; [by destruct (Hbad s Hs s1)|].
  apply IH; [|lia|done|].
  - intros i0 s0 s0' Hi0. apply Hpres. lia.
  - apply (Hpres lo s s1); [lia|done..].
Qed.

Lemma for_loop_faults {St : Type} (I : St → Prop) body lo hi i (s : St) :
  (∀ i s s', (lo <= i < hi)%Z → I s → body i s = Ok s' → I s') →
  (lo <= i < hi)%Z →
  (∀ s, I s → ∀ s', body i s ≠ Ok s') →
  I s → ∀ s', for_loop lo hi body s ≠ Ok s'.
Proof.
  intros Hpres Hi Hbad. unfold for_loop. apply for_range_faults with (i := i).
  - intros i0 s0 s0' Hi0. apply Hpres. lia.
  - lia.
  - exact Hbad.
Qed.

Lemma bind_Ok_inv {X Y : Type} (x : outcome X) (f : X → outcome Y) y :
  (x ≫= f) = Ok y → ∃ a, x = Ok a ∧ f a = Ok y.
Proof. destruct x; cbn; try discriminate. eauto. Qed.

Lemma bind_faults {X Y : Type} (x : outcome X) (f : X → outcome Y) :
  (∀ a, x ≠ Ok a) → ∀ y, (x ≫= f) ≠ Ok y.
Proof. intros H. apply bind_not_Ok. intros a E. by destruct (H a). Qed.

(** ** The kernels: what the output depends on, and buffer sizes *)

Section KernelExtras.
Context {T : Type}.
Variable fmul fadd : T → T → T.
Variable dim : Z.
Import Kernels.
Local Open Scope Z_scope.

Lemma holds_unique (off : Z → Z → Z → Z) (C1 C2 : list T) P :
  (∀ x, 0 <= x < N * dim * dim →
     ∃ t r c, 0 <= t < N ∧ 0 <= r < dim ∧ 0 <= c < dim ∧ off t r c = x) →
  holds dim off C1 P → holds dim off C2 P → C1 = C2.
Proof.
  intros Honto [L1 H1] [L2 H2]. apply list_eq. intros k.
  destruct (decide (Z.of_nat k < N * dim * dim)) as [Hk|Hk].
  - destruct (Honto (Z.of_nat k)) as (t & r & c & Ht & Hr & Hc & E); [lia|].
    destruct (H1 t r c Ht Hr Hc) as [_ E1].
    destruct (H2 t r c Ht Hr Hc) as [_ E2].
    rewrite E, Nat2Z.id in E1, E2. congruence.
  - rewrite !(proj2 (lookup_ge_None _ _)); [done|lia..].
Qed.

Lemma element_split e :
  0 < dim → 0 <= e < dim * dim →
  0 <= e / dim < dim ∧ 0 <= e mod dim < dim ∧ e / dim * dim + e mod dim = e.
Proof.
  intros Hd He. pose proof (Z.mod_pos_bound e dim Hd).
  pose proof (Z.div_mod e dim ltac:(lia)).
  split; [|split; [done|lia]].
  split; [apply Z.div_pos; lia|apply Z.div_lt_upper_bound; lia].
Qed.

Lemma AOSOA_offset_onto x :
  0 < dim → 0 <= x < N * dim * dim →
  ∃ t r c, 0 <= t < N ∧ 0 <= r < dim ∧ 0 <= c < dim
    ∧ AOSOA_offset dim t r c = x.
Proof.
  intros Hd Hx.
  destruct (eval_aosoa_onto dim x Hd Hx) as (e & t & He & Ht & E).
  destruct (element_split e Hd He) as (Hr & Hc & Ee).
  exists t, (e / dim), (e mod dim). repeat split; try lia.
  by rewrite AOSOA_offset_base, Ee, <- (eval_aosoa_leaf dim e t N).
Qed.

Lemma SOA_offset_onto x :
  0 < dim → 0 <= x < N * dim * dim →
  ∃ t r c, 0 <= t < N ∧ 0 <= r < dim ∧ 0 <= c < dim
    ∧ SOA_offset dim t r c = x.
Proof.
  intros Hd Hx. unfold N in *.
  assert (He : 0 <= x / 256 < dim * dim).
  { split; [apply Z.div_pos; lia|apply Z.div_lt_upper_bound; lia]. }
  destruct (element_split (x / 256) Hd He) as (Hr & Hc & Ee).
  exists (x mod 256), (x / 256 / dim), (x / 256 mod dim).
  split; [apply Z.mod_pos_bound; lia|]. split; [done|]. split; [done|].
  unfold SOA_offset, simd_width, N. rewrite Ee.
  pose proof (Z.div_mod x 256 ltac:(lia)).
  pose proof (Z.div_mod (x mod 256) 8 ltac:(lia)). lia.
Qed.

(** X14: on buffers of [N * dim * dim] elements, whatever they contain,
    neither kernel faults, and what it leaves in the output buffer
    depends on the two inputs only: not on what the output buffer held,
    nor on how many times the kernel is run. *)
Theorem kernel_output_determined (A B C1 C2 : list T) times1 times2 :
  dim = 1 ∨ dim = 2 ∨ dim = 4 →
  Z.of_nat (length A) = N * dim * dim →
  Z.of_nat (length B) = N * dim * dim →
  Z.of_nat (length C1) = N * dim * dim →
  Z.of_nat (length C2) = N * dim * dim →
  (∃ C', run_times (AOSOA_task fmul fadd dim A B) (S times1) C1 = Ok C'
     ∧ run_times (AOSOA_task fmul fadd dim A B) (S times2) C2 = Ok C'
     ∧ Z.of_nat (length C') = N * dim * dim)
  ∧ (∃ C', run_times (SOA_task fmul fadd dim A B) (S times1) C1 = Ok C'
       ∧ run_times (SOA_task fmul fadd dim A B) (S times2) C2 = Ok C'
       ∧ Z.of_nat (length C') = N * dim * dim).
Proof.
  intros Hdim LA LB L1 L2.
  assert (Hd : 0 < dim) by lia.
  assert (d : T).
  { destruct A as [|d ?]; [|exact d]. cbn in LA. unfold N in LA. nia. }
  split.
  - pose proof (holds_read dim (AOSOA_offset dim) d A LA
                  (AOSOA_offset_range dim)) as HA.
    pose proof (holds_read dim (AOSOA_offset dim) d B LB
                  (AOSOA_offset_range dim)) as HB.
    destruct (AOSOA_kernel_spec fmul fadd dim A B C1 _ _ times1
                ltac:(lia) HA HB L1) as (C1' & E1 & H1).
    destruct (AOSOA_kernel_spec fmul fadd dim A B C2 _ _ times2
                ltac:(lia) HA HB L2) as (C2' & E2 & H2).
    exists C1'. split; [exact E1|]. split; [|apply H1].
    rewrite E2. f_equal.
    apply (holds_unique (AOSOA_offset dim) C2' C1' _
             (λ x Hx, AOSOA_offset_onto x Hd Hx) H2 H1).
  - pose proof (holds_read dim (SOA_offset dim) d A LA
                  (SOA_offset_range dim)) as HA.
    pose proof (holds_read dim (SOA_offset dim) d B LB
                  (SOA_offset_range dim)) as HB.
    destruct (SOA_kernel_spec fmul fadd dim A B C1 _ _ times1
                ltac:(lia) HA HB L1) as (C1' & E1 & H1).
    destruct (SOA_kernel_spec fmul fadd dim A B C2 _ _ times2
                ltac:(lia) HA HB L2) as (C2' & E2 & H2).
    exists C1'. split; [exact E1|]. split; [|apply H1].
    rewrite E2. f_equal.
    apply (holds_unique (SOA_offset dim) C2' C1' _
             (λ x Hx, SOA_offset_onto x Hd Hx) H2 H1).
Qed.

Lemma store_length (C C' : list T) off (c : list T) :
  _mm256_store_ps C off c = Ok C' → length C' = length C.
Proof.
  unfold _mm256_store_ps. destruct (m256_access_ok C off); [|discriminate].
  intros [= <-]. apply length_inserts.
Qed.

Section Short.
Variable base : Z → Z → Z.
Hypothesis Hdim : 1 <= dim.
Hypothesis Hlast : base 31 (dim * dim - 1) + 8 = N * dim * dim.

Lemma last_access_short (buf : list T) :
  Z.of_nat (length buf) < N * dim * dim →
  m256_access_ok buf (base 31 (dim * dim - 1)) = false.
Proof using Hlast.
  intros Hs. unfold m256_access_ok.
  destruct (Z.leb_spec (base 31 (dim * dim - 1) + 8) (Z.of_nat (length buf)));
    [lia|]. by rewrite andb_false_r.
Qed.

Lemma last_element_range : 0 <= dim * dim - 1 < dim * dim.
Proof using Hdim. nia. Qed.

Lemma blocked_task_short_input (A B C : list T) :
  Z.of_nat (length A) < N * dim * dim
  ∨ Z.of_nat (length B) < N * dim * dim →
  ∀ C', blocked_task fmul fadd dim base A B C ≠ Ok C'.
Proof using All.
  intros Hs. unfold blocked_task. change (N / simd_width) with 32.
  apply (for_loop_faults (λ _, True)) with (i := 31); [done|lia| |done].
  intros C0 _. apply bind_faults.
  apply (for_loop_faults (λ _, True)) with (i := dim * dim - 1);
    [done|apply last_element_range| |done].
  intros ab _ ab'. unfold _mm256_load_ps.
  destruct Hs as [Hs|Hs].
  - by rewrite (last_access_short A Hs).
  - rewrite (last_access_short B Hs).
    destruct (m256_access_ok A (base 31 (dim * dim - 1))); [|done].
    rewrite bind_Ok. by destruct (regs_set (fst ab) (dim * dim - 1) _).
Qed.

Lemma blocked_task_short_output (A B C : list T) :
  Z.of_nat (length C) < N * dim * dim →
  ∀ C', blocked_task fmul fadd dim base A B C ≠ Ok C'.
Proof using All.
  intros Hs. unfold blocked_task. change (N / simd_width) with 32.
  set (I := λ C0 : list T, length C0 = length C).
  assert (Hj : ∀ t ab i j (C0 C1 : list T), I C0 →
            (x ← regs_at (fst ab) (i * dim);
             y ← regs_at (snd ab) j;
             c ← for_loop 1 dim (λ k c,
                   x ← regs_at (fst ab) (i * dim + k);
                   y ← regs_at (snd ab) (k * dim + j);
                   Ok (m256_add fadd c (m256_mul fmul x y)))
                 (m256_mul fmul x y);
             _mm256_store_ps C0 (base t (i * dim + j)) c) = Ok C1 → I C1).
  { intros t ab i j C0 C1 HI H.
    apply bind_Ok_inv in H as (x & _ & H).
    apply bind_Ok_inv in H as (y & _ & H).
    apply bind_Ok_inv in H as (c & _ & H).
    apply store_length in H. unfold I in *. congruence. }
  assert (Hi : ∀ t ab i (C0 C1 : list T), I C0 →
            for_loop 0 dim (λ j C0,
              x ← regs_at (fst ab) (i * dim);
              y ← regs_at (snd ab) j;
              c ← for_loop 1 dim (λ k c,
                    x ← regs_at (fst ab) (i * dim + k);
                    y ← regs_at (snd ab) (k * dim + j);
                    Ok (m256_add fadd c (m256_mul fmul x y)))
                  (m256_mul fmul x y);
              _mm256_store_ps C0 (base t (i * dim + j)) c) C0 = Ok C1 →
            I C1).
  { intros t ab i C0 C1 HI H.
    eapply (for_loop_preserves I); [|exact HI|exact H].
    intros j s s' _ Hs0 Hb. exact (Hj t ab i j s s' Hs0 Hb). }
  apply (for_loop_faults I) with (i := 31); [|lia| |done].
  - intros t C0 C1 _ HI H. apply bind_Ok_inv in H as (ab & _ & H).
    eapply (for_loop_preserves I); [|exact HI|exact H].
    intros i s s' _ Hs0 Hb. exact (Hi t ab i s s' Hs0 Hb).
  - intros C0 HI. apply bind_not_Ok. intros ab _.
    apply (for_loop_faults I) with (i := dim - 1); [|lia| |done].
    + intros i s s' _ Hs0 Hb. exact (Hi 31 ab i s s' Hs0 Hb).
    + intros C1 HI1.
      apply (for_loop_faults I) with (i := dim - 1); [|lia| |done].
      * intros j s s' _ Hs0 Hb. exact (Hj 31 ab (dim - 1) j s s' Hs0 Hb).
      * intros C2 HI2. apply bind_not_Ok. intros x _.
        apply bind_not_Ok. intros y _. apply bind_not_Ok. intros c _.
        replace ((dim - 1) * dim + (dim - 1)) with (dim * dim - 1) by ring.
        unfold _mm256_store_ps. rewrite last_access_short; [done|].
        unfold I in HI2. lia.
Qed.

End Short.


End KernelExtras.

Lemma kernel_output_determined_witness :
  (∃ C', Kernels.run_times
           (Kernels.AOSOA_task Float32.mul Float32.add 2 (twos 2) (threes 2))
           1 (zeros 2) = Ok C'
     ∧ Kernels.run_times
         (Kernels.AOSOA_task Float32.mul Float32.add 2 (twos 2) (threes 2))
         3 (twos 2) = Ok C'
     ∧ Z.of_nat (length C') = (N * 2 * 2)%Z)
  ∧ (∃ C', Kernels.run_times
             (Kernels.SOA_task Float32.mul Float32.add 2 (twos 2) (threes 2))
             1 (zeros 2) = Ok C'
       ∧ Kernels.run_times
           (Kernels.SOA_task Float32.mul Float32.add 2 (twos 2) (threes 2))
           3 (twos 2) = Ok C'
       ∧ Z.of_nat (length C') = (N * 2 * 2)%Z).
Proof.
  apply (kernel_output_determined Float32.mul Float32.add 2
           (twos 2) (threes 2) (zeros 2) (twos 2) 0 2
           (or_intror (or_introl eq_refl))); reflexivity.
Defined.


(** ** The permutation and validation loops of [Tlang_matmatmul] *)

Lemma for_range_unit body cnt : ∀ lo,
  for_range lo cnt body tt = Ok tt
  ↔ ∀ i, (lo <= i < lo + Z.of_nat cnt)%Z → body i tt = Ok tt.
Proof.
  induction cnt as [|c IH]; intros lo.
  - cbn. split; [intros _ i Hi; lia|done].
  - cbn [for_range]. split.
    + intros H i Hi. apply bind_Ok_inv in H as ([] & E & H).
      destruct (decide (i = lo)) as [->|Hne]; [done|].
      apply (proj1 (IH (lo + 1)%Z) H). lia.
    + intros H. rewrite (H lo) by lia. rewrite bind_Ok.
      apply IH. intros i Hi. apply H. lia.
Qed.

Lemma for_loop_unit body lo hi :
  for_loop lo hi body tt = Ok tt
  ↔ ∀ i, (lo <= i < hi)%Z → body i tt = Ok tt.
Proof.
  unfold for_loop. rewrite for_range_unit. split; intros H i Hi; apply H; lia.
Qed.

Section PermuteFacts.
Context {T : Type}.
Variable dim : Z.
Variable addr : Z → Z → Z → Z.
Import Kernels Matmatmul.
Local Open Scope Z_scope.

Lemma buf_read_Ok (buf : list T) z v :
  0 <= z → buf !! Z.to_nat z = Some v → buf_read buf z = Ok v.
Proof.
  intros Hz H. unfold buf_read. destruct (Z.ltb_spec z 0); [lia|]. by rewrite H.
Qed.

Lemma buf_write_Ok (buf : list T) z v :
  0 <= z < Z.of_nat (length buf) →
  buf_write buf z v = Ok (<[Z.to_nat z := v]> buf).
Proof.
  intros Hz. unfold buf_write.
  destruct (Z.leb_spec 0 z), (Z.ltb_spec z (Z.of_nat (length buf)));
    (done || lia).
Qed.

Lemma permuted_weaken MA MB (done done' : Z → Z → Z → Prop)
    (s : list T * list T) :
  (∀ i j k, 0 <= i < N → 0 <= j < dim → 0 <= k < dim →
     done' i j k → done i j k) →
  permuted dim addr MA MB done s → permuted dim addr MA MB done' s.
Proof.
  intros Himp (L1 & L2 & H). repeat split; try done; apply H; auto.
Qed.

Section Permute.
Variable A B : list T.
Variable MA MB : Z → Z → Z → T.
Hypothesis Hrange : ∀ i j k, 0 <= i < N → 0 <= j < dim → 0 <= k < dim →
  0 <= addr j k i < N * dim * dim.
Hypothesis Hinj : ∀ i j k i' j' k',
  0 <= i < N → 0 <= j < dim → 0 <= k < dim →
  0 <= i' < N → 0 <= j' < dim → 0 <= k' < dim →
  addr j k i = addr j' k' i' → i = i' ∧ j = j' ∧ k = k'.
Hypothesis HA : holds dim (AOSOA_offset dim) A MA.
Hypothesis HB : holds dim (AOSOA_offset dim) B MB.

Lemma permute_step (done : Z → Z → Z → Prop) (s : list T * list T) i j k :
  0 <= i < N → 0 <= j < dim → 0 <= k < dim →
  permuted dim addr MA MB done s →
  ∃ s',
    (a ← buf_read A ((i / 8 * dim * dim + j * dim + k) * 8 + i mod 8);
     A_ ← buf_write (fst s) (addr j k i) a;
     b ← buf_read B ((i / 8 * dim * dim + j * dim + k) * 8 + i mod 8);
     B_ ← buf_write (snd s) (addr j k i) b;
     Ok (A_, B_)) = Ok s'
    ∧ permuted dim addr MA MB
        (λ i' j' k', done i' j' k' ∨ (i' = i ∧ j' = j ∧ k' = k)) s'.
Proof using All.
  intros Hi Hj Hk (L1 & L2 & H).
  change ((i / 8 * dim * dim + j * dim + k) * 8 + i mod 8)
    with (ind2 dim i j k).
  rewrite ind2_AOSOA_offset.
  destruct HA as [_ HA'], HB as [_ HB'].
  destruct (HA' i j k Hi Hj Hk) as [Hnn Ea].
  destruct (HB' i j k Hi Hj Hk) as [_ Eb].
  pose proof (Hrange i j k Hi Hj Hk) as Hr.
  rewrite (buf_read_Ok A _ _ Hnn Ea), bind_Ok.
  rewrite buf_write_Ok, bind_Ok by lia.
  rewrite (buf_read_Ok B _ _ Hnn Eb), bind_Ok.
  rewrite buf_write_Ok, bind_Ok by lia.
  eexists. split; [reflexivity|]. unfold permuted. cbn [fst snd].
  split; [by rewrite length_insert|]. split; [by rewrite length_insert|].
  intros i' j' k' Hi' Hj' Hk' Hd.
  destruct (decide (i' = i ∧ j' = j ∧ k' = k)) as [(-> & -> & ->)|Hne].
  - split; apply list_lookup_insert_eq; lia.
  - pose proof (Hrange i' j' k' Hi' Hj' Hk') as Hr'.
    assert (Hdiff : addr j k i ≠ addr j' k' i').
    { intros E. apply Hne.
      destruct (Hinj i j k i' j' k') as (-> & -> & ->); done. }
    rewrite !list_lookup_insert_ne by lia.
    apply H; try done. destruct Hd as [?|?]; [done|tauto].
Qed.

Lemma permute_spec (A0 B0 : list T) :
  0 <= dim →
  Z.of_nat (length A0) = N * dim * dim →
  Z.of_nat (length B0) = N * dim * dim →
  ∃ s, permute dim addr A B (A0, B0) = Ok s
    ∧ permuted dim addr MA MB (λ _ _ _, True) s.
Proof using All.
  intros Hdim LA LB. unfold permute.
  apply (for_loop_inv_post
    (λ i s, permuted dim addr MA MB (λ i' _ _, i' < i) s));
    [unfold N; lia| | |].
  - split; [done|]. split; [done|]. intros i' j' k' Hi' _ _ Hd. lia.
  - intros i s1 Hi H1.
    apply (for_loop_inv_post
      (λ j s, permuted dim addr MA MB
                (λ i' j' _, i' < i ∨ (i' = i ∧ j' < j)) s)); [lia| | |].
    + eapply permuted_weaken; [|exact H1]. cbn. intros; lia.
    + intros j s2 Hj H2.
      apply (for_loop_inv_post
        (λ k s, permuted dim addr MA MB
                  (λ i' j' k', i' < i ∨ (i' = i ∧ (j' < j ∨ (j' = j ∧ k' < k))))
                  s)); [lia| | |].
      * eapply permuted_weaken; [|exact H2]. cbn. intros; lia.
      * intros k s3 Hk H3. cbv zeta.
        destruct (permute_step _ s3 i j k Hi Hj Hk H3) as (s' & -> & H').
        exists s'. split; [done|].
        eapply permuted_weaken; [|exact H']. cbn. intros; lia.
      * intros s' H'. eapply permuted_weaken; [|exact H']. cbn. intros; lia.
    + intros s' H'. eapply permuted_weaken; [|exact H']. cbn. intros; lia.
  - intros s' H'. eapply permuted_weaken; [|exact H']. cbn. intros; lia.
Qed.

End Permute.

(** X16: the permutation loop of [Tlang_matmatmul] moves a batch from
    the AOSOA order into the order of the compiled kernel: when the
    compiled addresses stay inside the buffer and no two instances share
    one, the loop runs to completion and leaves in [A_] and [B_], at
    address [c(j, k)->addr.eval(i, N)], element [(j, k)] of instance [i]
    of [A] and [B]. *)
Theorem permute_transports (A B A0 B0 : list T) (MA MB : Z → Z → Z → T) :
  0 <= dim →
  (∀ i j k, 0 <= i < N → 0 <= j < dim → 0 <= k < dim →
     0 <= addr j k i < N * dim * dim) →
  (∀ i j k i' j' k',
     0 <= i < N → 0 <= j < dim → 0 <= k < dim →
     0 <= i' < N → 0 <= j' < dim → 0 <= k' < dim →
     addr j k i = addr j' k' i' → i = i' ∧ j = j' ∧ k = k') →
  holds dim (AOSOA_offset dim) A MA → holds dim (AOSOA_offset dim) B MB →
  Z.of_nat (length A0) = N * dim * dim →
  Z.of_nat (length B0) = N * dim * dim →
  ∃ A_ B_, permute dim addr A B (A0, B0) = Ok (A_, B_)
    ∧ holds dim (λ t row col, addr row col t) A_ MA
    ∧ holds dim (λ t row col, addr row col t) B_ MB.
Proof.
  intros Hdim Hrange Hinj HA HB LA LB.
  destruct (permute_spec A B MA MB Hrange Hinj HA HB A0 B0 Hdim LA LB)
    as ([A_ B_] & E & L1 & L2 & H).
  exists A_, B_. split; [exact E|]. cbn [fst snd] in *.
  split; (split; [done|]); intros t r c Ht Hr Hc;
    (split; [apply (Hrange t r c); done|]);
    by destruct (H t r c Ht Hr Hc I).
Qed.

End PermuteFacts.

Section ValidateFacts.
Variable dim : Z.
Variable addr : Z → Z → Z → Z.
Import Kernels Matmatmul.
Local Open Scope Z_scope.

(** X17: the validation loop of [Tlang_matmatmul] on a compiled output
    that agrees exactly with the reference: when [C] holds, at the
    compiled addresses, the very values that [D] holds in AOSOA order,
    the loop passes if and only if every one of these values is finite. *)
Theorem validate_exact_agreement (C D : list spec_float)
    (P : Z → Z → Z → spec_float) :
  holds dim (λ t row col, addr row col t) C P →
  holds dim (AOSOA_offset dim) D P →
  validate dim addr C D = Ok tt
  ↔ ∀ t row col, 0 <= t < N → 0 <= row < dim → 0 <= col < dim →
      is_finite (P t row col) = true.
Proof.
  intros [_ HC] [_ HD]. unfold validate.
  assert (Hbody : ∀ i j k, 0 <= i < N → 0 <= j < dim → 0 <= k < dim →
    (a ← buf_read C (addr j k i);
     b ← buf_read D ((i / 8 * dim * dim + j * dim + k) * 8 + i mod 8);
     Validation.matmatmul_check a b)
    = Validation.matmatmul_check (P i j k) (P i j k)).
  { intros i j k Hi Hj Hk.
    change ((i / 8 * dim * dim + j * dim + k) * 8 + i mod 8)
      with (ind2 dim i j k).
    rewrite ind2_AOSOA_offset.
    destruct (HC i j k Hi Hj Hk) as [Hn1 E1].
    destruct (HD i j k Hi Hj Hk) as [Hn2 E2].
    by rewrite (buf_read_Ok C _ _ Hn1 E1), bind_Ok,
               (buf_read_Ok D _ _ Hn2 E2), bind_Ok. }
  rewrite for_loop_unit. split.
  - intros H t r c Ht Hr Hc.
    specialize (H t Ht). rewrite for_loop_unit in H.
    specialize (H r Hr). rewrite for_loop_unit in H.
    specialize (H c Hc). cbv zeta in H. rewrite Hbody in H by done.
    destruct (is_finite (P t r c)) eqn:E; [done|].
    rewrite (proj2 (matmatmul_check_self (P t r c))) in H; [discriminate|].
    by rewrite E.
  - intros H i Hi. apply for_loop_unit. intros j Hj.
    apply for_loop_unit. intros k Hk. cbv zeta. rewrite Hbody by done.
    apply matmatmul_check_self. by apply H.
Qed.

End ValidateFacts.

(** ** The scalar AOS kernel *)

Section AOSFacts.
Context {T : Type}.
Variable fmul fadd : T → T → T.
Variable zero : T.
Variable dim : Z.
Import AOS.
Local Open Scope Z_scope.

Lemma mat_guard_false t i j :
  0 <= t → 0 <= i → 0 <= j → (t <? 0) || (i <? 0) || (j <? 0) = false.
Proof.
  intros. destruct (Z.ltb_spec t 0), (Z.ltb_spec i 0), (Z.ltb_spec j 0);
    (done || lia).
Qed.

Lemma mat_set_spec (C : list (list (list T))) t i j v :
  shaped dim C → 0 <= t < N → 0 <= i < dim → 0 <= j < dim →
  ∃ C', mat_set C t i j v = Ok C'
    ∧ shaped dim C'
    ∧ mat_get C' t i j = Ok v
    ∧ ∀ t' i' j', 0 <= t' → 0 <= i' → 0 <= j' →
        ¬ (t' = t ∧ i' = i ∧ j' = j) →
        mat_get C' t' i' j' = mat_get C t' i' j'.
Proof.
  intros [L H] Ht Hi Hj.
  destruct (lookup_lt_is_Some_2 C (Z.to_nat t)) as [mat Em]; [lia|].
  destruct (H _ _ Em) as [Lm Hm].
  destruct (lookup_lt_is_Some_2 mat (Z.to_nat i)) as [row Er]; [lia|].
  pose proof (Hm _ _ Er) as Lr.
  unfold mat_set. rewrite mat_guard_false, Em, Er by lia.
  destruct (Z.ltb_spec j (Z.of_nat (length row))); [|lia].
  eexists. split; [reflexivity|]. split; [|split].
  - split; [by rewrite length_insert|]. intros t' mat' E'.
    apply list_lookup_insert_Some in E' as [(_ & <- & _)|[_ E']];
      [|by apply (H t')].
    split; [by rewrite length_insert|]. intros i' row' Er'.
    apply list_lookup_insert_Some in Er' as [(_ & <- & _)|[_ Er']];
      [by rewrite length_insert|by apply (Hm i')].
  - unfold mat_get. rewrite mat_guard_false by lia.
    rewrite !list_lookup_insert_eq by lia. done.
  - intros t' i' j' Ht' Hi' Hj' Hne. unfold mat_get.
    rewrite mat_guard_false by lia.
    destruct (decide (t' = t)) as [->|Nt];
      [|by rewrite list_lookup_insert_ne by lia].
    rewrite list_lookup_insert_eq, Em by lia.
    destruct (decide (i' = i)) as [->|Ni];
      [|by rewrite list_lookup_insert_ne by lia].
    rewrite list_lookup_insert_eq, Er by lia.
    rewrite list_lookup_insert_ne by (intros E; apply Hne; lia). done.
Qed.

Lemma sum_upto_succ (a b : Z → Z → T) i j k :
  0 <= k →
  sum_upto fmul fadd zero a b i j (k + 1)
  = fadd (sum_upto fmul fadd zero a b i j k) (fmul (a i k) (b k j)).
Proof.
  intros Hk. unfold sum_upto. rewrite seqZ_app by lia.
  rewrite (seqZ_cons (0 + k) 1), (seqZ_nil _ (Z.pred 1)) by lia.
  rewrite fold_left_app. cbn. by rewrite Z.add_0_l.
Qed.

Lemma summed_weaken MA MB (done done' : Z → Z → Z → Prop)
    (C : list (list (list T))) :
  (∀ t i j, 0 <= t < N → 0 <= i < dim → 0 <= j < dim →
     done' t i j → done t i j) →
  summed fmul fadd zero dim MA MB done C →
  summed fmul fadd zero dim MA MB done' C.
Proof. intros Himp [Hs H]. split; [done|]. intros. apply H; auto. Qed.

Lemma AOS_task_summed (A B C : list (list (list T))) MA MB :
  0 <= dim →
  represents dim A MA → represents dim B MB → shaped dim C →
  ∃ C', AOS_task fmul fadd zero dim A B C = Ok C'
    ∧ summed fmul fadd zero dim MA MB (λ _ _ _, True) C'.
Proof.
  intros Hdim HA HB HC. unfold AOS_task.
  apply (for_loop_inv_post
    (λ t C, summed fmul fadd zero dim MA MB (λ t' _ _, t' < t) C));
    [unfold N; lia| | |].
  - split; [done|]. intros; lia.
  - intros t C1 Ht H1.
    apply (for_loop_inv_post
      (λ i C, summed fmul fadd zero dim MA MB
                (λ t' i' _, t' < t ∨ (t' = t ∧ i' < i)) C)); [lia| | |].
    + eapply summed_weaken; [|exact H1]. cbn. intros; lia.
    + intros i C2 Hi H2.
      apply (for_loop_inv_post
        (λ j C, summed fmul fadd zero dim MA MB
                  (λ t' i' j', t' < t ∨ (t' = t ∧ (i' < i ∨ (i' = i ∧ j' < j))))
                  C)); [lia| | |].
      * eapply summed_weaken; [|exact H2]. cbn. intros; lia.
      * intros j C3 Hj [Hs3 H3].
        assert (Hsum : for_loop 0 dim (λ k sum,
                    a ← mat_get A t i k;
                    b ← mat_get B t k j;
                    Ok (fadd sum (fmul a b))) zero
                  = Ok (sum_upto fmul fadd zero (MA t) (MB t) i j dim)).
        { destruct (for_loop_inv_post
            (λ k sum, sum = sum_upto fmul fadd zero (MA t) (MB t) i j k)
            (λ sum, sum = sum_upto fmul fadd zero (MA t) (MB t) i j dim)
            (λ k sum, a ← mat_get A t i k;
                      b ← mat_get B t k j;
                      Ok (fadd sum (fmul a b))) 0 dim zero)
            as (sum & E & ->); [lia|done| |done|exact E].
          intros k sum Hk ->.
          rewrite (HA t i k), bind_Ok, (HB t k j), bind_Ok by done.
          eexists. split; [reflexivity|]. symmetry. apply sum_upto_succ. lia. }
        rewrite Hsum, bind_Ok.
        destruct (mat_set_spec C3 t i j
                    (sum_upto fmul fadd zero (MA t) (MB t) i j dim)
                    Hs3 Ht Hi Hj) as (C' & -> & Hs' & Hnew & Hold).
        exists C'. split; [done|]. split; [exact Hs'|].
        intros t' i' j' Ht' Hi' Hj' Hd.
        destruct (decide (t' = t ∧ i' = i ∧ j' = j)) as [(-> & -> & ->)|Hne];
          [exact Hnew|].
        rewrite Hold by (done || lia). apply H3; [done..|]. lia.
      * intros C' H'. eapply summed_weaken; [|exact H']. cbn. intros; lia.
    + intros C' H'. eapply summed_weaken; [|exact H']. cbn. intros; lia.
  - intros C' H'. eapply summed_weaken; [|exact H']. cbn. intros; lia.
Qed.

(** X18: the closure of [AOS_matmatmul]: on three vectors of [N] matrices
    of [dim x dim] entries it runs to completion, keeps the shape of the
    output vector, and leaves in [C[t].d[i][j]] the sum that starts from
    [0] and adds [A[t].d[i][k] * B[t].d[k][j]] for [k = 0 .. dim - 1] in
    turn. *)
Theorem AOS_task_product (A B C : list (list (list T))) MA MB :
  0 <= dim →
  represents dim A MA → represents dim B MB → shaped dim C →
  ∃ C', AOS_task fmul fadd zero dim A B C = Ok C'
    ∧ shaped dim C'
    ∧ ∀ t i j, 0 <= t < N → 0 <= i < dim → 0 <= j < dim →
        mat_get C' t i j
        = Ok (fold_left (λ sum k, fadd sum (fmul (MA t i k) (MB t k j)))
                        (seqZ 0 dim) zero).
Proof.
  intros Hdim HA HB HC.
  destruct (AOS_task_summed A B C MA MB Hdim HA HB HC) as (C' & E & Hs & H).
  exists C'. split; [exact E|]. split; [exact Hs|].
  intros t i j Ht Hi Hj. by apply H.
Qed.

End AOSFacts.

Lemma permute_transports_witness :
  ∃ A_ B_,
    Matmatmul.permute 1 (λ _ _ i, i) (twos 1) (threes 1) (zeros 1, zeros 1)
    = Ok (A_, B_)
    ∧ Kernels.holds 1 (λ t _ _, t) A_ (λ _ _ _, Float32.of_int 2)
    ∧ Kernels.holds 1 (λ t _ _, t) B_ (λ _ _ _, Float32.of_int 3).
Proof.
  apply (permute_transports 1 (λ _ _ i, i) (twos 1) (threes 1)
           (zeros 1) (zeros 1)
           (λ _ _ _, Float32.of_int 2) (λ _ _ _, Float32.of_int 3)).
  - lia.
  - intros i j k Hi Hj Hk. unfold N in *. lia.
  - intros i j k i' j' k' Hi Hj Hk Hi' Hj' Hk' E. lia.
  - apply holds_replicate; [lia|]. apply AOSOA_offset_range.
  - apply holds_replicate; [lia|]. apply AOSOA_offset_range.
  - reflexivity.
  - reflexivity.
Defined.

Lemma validate_exact_agreement_witness :
  Matmatmul.validate 1 (λ _ _ i, i) (twos 1) (twos 1) = Ok tt
  ↔ ∀ t row col, (0 <= t < N)%Z → (0 <= row < 1)%Z → (0 <= col < 1)%Z →
      is_finite (Float32.of_int 2) = true.
Proof.
  apply (validate_exact_agreement 1 (λ _ _ i, i) (twos 1) (twos 1)
           (λ _ _ _, Float32.of_int 2)).
  - apply holds_replicate; [lia|]. intros t r c Ht Hr Hc. unfold N in *. lia.
  - apply holds_replicate; [lia|]. apply AOSOA_offset_range.
Defined.

Lemma AOS_task_product_witness :
  ∃ C', AOS.AOS_task Z.mul Z.add 0%Z 2
          (replicate 256 [[1; 2]; [3; 4]]%Z)
          (replicate 256 [[5; 6]; [7; 8]]%Z)
          (replicate 256 [[0; 0]; [0; 0]]%Z) = Ok C'
    ∧ AOS.shaped 2 C'
    ∧ ∀ t i j, (0 <= t < N)%Z → (0 <= i < 2)%Z → (0 <= j < 2)%Z →
        AOS.mat_get C' t i j
        = Ok (fold_left
                (λ sum k, sum + (1 + 2 * i + k) * (5 + 2 * k + j))%Z
                (seqZ 0 2) 0%Z).
Proof.
  apply (AOS_task_product Z.mul Z.add 0%Z 2
           (replicate 256 [[1; 2]; [3; 4]]%Z)
           (replicate 256 [[5; 6]; [7; 8]]%Z)
           (replicate 256 [[0; 0]; [0; 0]]%Z)
           (λ _ i j, 1 + 2 * i + j)%Z (λ _ i j, 5 + 2 * i + j)%Z).
  - lia.
  - intros t i j Ht Hi Hj. unfold AOS.mat_get.
    rewrite mat_guard_false by lia.
    rewrite lookup_replicate_2 by (unfold N in Ht; lia).
    assert (Ei : i = 0%Z ∨ i = 1%Z) by lia.
    assert (Ej : j = 0%Z ∨ j = 1%Z) by lia.
    destruct Ei as [-> | ->], Ej as [-> | ->]; reflexivity.
  - intros t i j Ht Hi Hj. unfold AOS.mat_get.
    rewrite mat_guard_false by lia.
    rewrite lookup_replicate_2 by (unfold N in Ht; lia).
    assert (Ei : i = 0%Z ∨ i = 1%Z) by lia.
    assert (Ej : j = 0%Z ∨ j = 1%Z) by lia.
    destruct Ei as [-> | ->], Ej as [-> | ->]; reflexivity.
  - split; [reflexivity|]. intros t mat E.
    apply lookup_replicate in E as [-> _].
    split; [reflexivity|]. intros i row Er.
    destruct i as [|[|[|]]]; cbn in Er; try discriminate;
      injection Er as <-; reflexivity.
Defined.

(** ** The scalar kernel against the vector kernels *)

Section AOSAgainstAOSOA.
Context {T : Type}.
Variable fmul fadd : T → T → T.
Variable zero : T.
Variable dim : Z.
Import AOS Kernels.
Local Open Scope Z_scope.

Lemma sum_upto_inner_product (a b : Z → Z → T) i j :
  1 <= dim → (∀ x, fadd zero x = x) →
  sum_upto fmul fadd zero a b i j dim = inner_product fmul fadd dim a b i j.
Proof.
  intros Hdim Hzero. unfold sum_upto, inner_product.
  rewrite seqZ_cons by lia. cbn [fold_left]. rewrite Hzero.
  change (Z.succ 0) with 1. by rewrite <- Z.sub_1_r.
Qed.


End AOSAgainstAOSOA.

(** In [float32] the hypothesis on [0] fails for the negative zero alone
    among the zeros: [0 + (-0)] is [+0]. With [dim = 1] and a product that
    is [-0] the scalar kernel stores [+0] where the vector kernels store
    [-0]. *)
Example float32_zero_plus_negative_zero :
  Float32.add (Float32.of_int 0) (S754_zero true) = S754_zero false
  ∧ Float32.mul (S754_zero true) (Float32.of_int 1) = S754_zero true.
Proof. split; reflexivity. Qed.


(** ** The store loop of [Tlang_matmatmul] *)

Section StoreLoopFacts.
Context {Expr Prog : Type}.
Variable store : Prog → Expr → Prog * Expr.
Variable dim : Z.
Import Tlang Matmatmul.
Local Open Scope Z_scope.
Local Abbreviation wrapped := (Matmatmul.wrapped store dim).

Lemma wrapped_weaken (f : Z → Z → Expr) (done done' : Z → Z → Prop) s :
  (∀ i j, 0 <= i < dim → 0 <= j < dim → done' i j ↔ done i j) →
  wrapped f done s → wrapped f done' s.
Proof.
  intros Hiff (g & Hg & H). exists g. split; [exact Hg|].
  intros i j Hi Hj. destruct (H i j Hi Hj) as [H1 H2].
  split; intros Hd; [apply H1|apply H2]; by rewrite <- (Hiff i j Hi Hj).
Qed.

Lemma store_entry_step (f : Z → Z → Expr) (done : Z → Z → Prop) s r c :
  0 <= r < dim → 0 <= c < dim → ¬ done r c →
  wrapped f done s →
  ∃ s',
    (e ← get2 (snd s) r c;
     let pe := store (fst s) e in
     c' ← set2 (snd s) r c (snd pe);
     Ok (fst pe, c')) = Ok s'
    ∧ wrapped f (λ i j, done i j ∨ (i = r ∧ j = c)) s'.
Proof.
  intros Hr Hc Hnd (g & Hg & H).
  rewrite (get2_filled _ _ _ _ _ r c Hg) by (done || lia).
  rewrite bind_Ok. cbv zeta.
  destruct (set2_filled (g r c) (λ a _, a) (λ a _, a) _ _ _ _ _ r c
              (snd (store (fst s) (g r c))) Hg)
    as (M' & -> & HM'); [lia|done..|].
  rewrite bind_Ok. eexists. split; [reflexivity|].
  exists (λ i j, if decide (i = r ∧ j = c)
                 then snd (store (fst s) (g r c)) else g i j).
  cbn [snd]. split.
  - eapply filled_ext; [|exact HM']. cbn. intros; split; [by left|done].
  - intros i j Hi Hj. destruct (decide (i = r ∧ j = c)) as [[-> ->]|Hne].
    + split; [|tauto]. intros _. exists (fst s).
      by rewrite (proj2 (H r c Hr Hc) Hnd).
    + destruct (H i j Hi Hj) as [H1 H2].
      split; [intros [Hd|Hd]; [by apply H1|tauto]|].
      intros Hd. apply H2. tauto.
Qed.


End StoreLoopFacts.

(** With a [store] that logs its argument and wraps it in a [Store] node:
    layout 0 stores the entries of a [2 x 2] matrix row by row, the other
    layout column by column; the matrix that results is the same. *)
Example store_loop_order :
  Matmatmul.store_loop (λ p e, (p ++ [e], Store e)) 0 2 ([], sq22)
  = Ok ([Leaf 0; Leaf 1; Leaf 2; Leaf 3],
        Tlang.mkMatrix 2 2
          [Store (Leaf 0); Store (Leaf 1); Store (Leaf 2); Store (Leaf 3)])
  ∧ Matmatmul.store_loop (λ p e, (p ++ [e], Store e)) 1 2 ([], sq22)
    = Ok ([Leaf 0; Leaf 2; Leaf 1; Leaf 3],
          Tlang.mkMatrix 2 2
            [Store (Leaf 0); Store (Leaf 1); Store (Leaf 2); Store (Leaf 3)]).
Proof. split; reflexivity. Qed.

